(** * fix_interfaces.py: the per-file text patcher, embedded and verified

    The script reads a C# entity file, regroups its [using] lines when the
    required import is missing, splices two fixed member templates in front
    of a closing brace located by a regular expression, and writes the file
    back when the text changed.

    Python [str] values are sequences of Unicode code points; they are
    modelled as lists of code points ([N]).  String literals of the script
    are written as UTF-8 literals and decoded by [utf8]. *)

From Stdlib Require Import String Ascii DecimalString List NArith Arith Bool Lia.
From Stdlib Require Import Permutation.
Import ListNotations.

(** ** Text *)

Definition char := N.
Definition str := list char.

(** Decoder for the UTF-8 literals of this file (1 to 4 byte sequences). *)
Fixpoint utf8 (s : string) : str :=
  match s with
  | EmptyString => []
  | String a r =>
    let b := N_of_ascii a in
    if (b <? 128)%N then b :: utf8 r
    else if (b <? 224)%N then
      match r with
      | String a1 r1 =>
        ((b - 192) * 64 + (N_of_ascii a1 - 128))%N :: utf8 r1
      | _ => []
      end
    else if (b <? 240)%N then
      match r with
      | String a1 (String a2 r2) =>
        ((b - 224) * 4096 + (N_of_ascii a1 - 128) * 64
         + (N_of_ascii a2 - 128))%N :: utf8 r2
      | _ => []
      end
    else
      match r with
      | String a1 (String a2 (String a3 r3)) =>
        ((b - 240) * 262144 + (N_of_ascii a1 - 128) * 4096
         + (N_of_ascii a2 - 128) * 64 + (N_of_ascii a3 - 128))%N :: utf8 r3
      | _ => []
      end
  end.

Definition NL : char := 10%N.          (* '\n' *)
Definition RBRACE : char := 125%N.     (* '}' *)

(** [==] on [str]. *)
Fixpoint str_eqb (a b : str) : bool :=
  match a, b with
  | [], [] => true
  | x :: a', y :: b' => (x =? y)%N && str_eqb a' b'
  | _, _ => false
  end.

(** [s.startswith(p)] *)
Fixpoint startswith (p s : str) : bool :=
  match p with
  | [] => true
  | x :: p' =>
    match s with
    | [] => false
    | y :: s' => (x =? y)%N && startswith p' s'
    end
  end.

(** [s.endswith(p)] *)
Definition endswith (p s : str) : bool := startswith (rev p) (rev s).

(** [needle in hay] *)
Fixpoint contains (needle hay : str) : bool :=
  startswith needle hay ||
  match hay with
  | [] => false
  | _ :: hay' => contains needle hay'
  end.

(** [Py_UNICODE_ISSPACE]: the characters removed by [str.strip()] and
    matched by [\s] in a [str] pattern. *)
Definition isspace (c : char) : bool :=
  ((9 <=? c) && (c <=? 13) || (28 <=? c) && (c <=? 32)
   || (c =? 133) || (c =? 160) || (c =? 5760)
   || (8192 <=? c) && (c <=? 8202)
   || (c =? 8232) || (c =? 8233) || (c =? 8239) || (c =? 8287)
   || (c =? 12288))%N.

Fixpoint lstrip (s : str) : str :=
  match s with
  | [] => []
  | c :: s' => if isspace c then lstrip s' else s
  end.

Fixpoint rstrip (s : str) : str :=
  match s with
  | [] => []
  | c :: s' =>
    match rstrip s' with
    | [] => if isspace c then [] else [c]
    | t => c :: t
    end
  end.

(** [s.strip()] *)
Definition strip (s : str) : str := rstrip (lstrip s).

(** [s.split('\n')] *)
Fixpoint split_nl (s : str) : list str :=
  match s with
  | [] => [[]]
  | c :: s' =>
    if (c =? NL)%N then [] :: split_nl s'
    else
      match split_nl s' with
      | l :: ls => (c :: l) :: ls
      | [] => [[c]]
      end
  end.

(** ['\n'.join(ls)] *)
Fixpoint join_nl (ls : list str) : str :=
  match ls with
  | [] => []
  | [l] => l
  | l :: ls' => l ++ NL :: join_nl ls'
  end.

(** ** The constants of the script *)

Definition SOFT_DELETE_TEMPLATE : str := Eval vm_compute in utf8 "
    // Implementação de ISoftDeletableEntity

    /// <summary>
    /// Indica se a entidade foi excluída logicamente
    /// </summary>
    public bool Excluido { get; set; } = false;

    /// <summary>
    /// Data da exclusão lógica
    /// </summary>
    public DateTime? DataExclusao { get; set; }

    /// <summary>
    /// Usuário responsável pela exclusão
    /// </summary>
    [StringLength(100)]
    public string? UsuarioExclusao { get; set; }

    /// <summary>
    /// Motivo da exclusão para auditoria
    /// </summary>
    [StringLength(500)]
    public string? MotivoExclusao { get; set; }

    /// <summary>
    /// Marca a entidade como excluída logicamente
    /// </summary>
    public void MarkAsDeleted(string? usuarioId = null, string? motivo = null)
    {
        Excluido = true;
        DataExclusao = DateTime.UtcNow;
        UsuarioExclusao = usuarioId;
        MotivoExclusao = motivo;
    }

    /// <summary>
    /// Restaura uma entidade excluída logicamente
    /// </summary>
    public void Restore()
    {
        Excluido = false;
        DataExclusao = null;
        UsuarioExclusao = null;
        MotivoExclusao = null;
    }".

Definition ARCHIVABLE_TEMPLATE : str := Eval vm_compute in utf8 "
    // Implementação de IArchivableEntity

    /// <summary>
    /// Indica se a entidade foi arquivada
    /// </summary>
    public bool Arquivado { get; set; } = false;

    /// <summary>
    /// Data do arquivamento
    /// </summary>
    public DateTime? DataArquivamento { get; set; }

    /// <summary>
    /// Data da última movimentação/atividade da entidade
    /// </summary>
    public DateTime UltimaMovimentacao { get; set; } = DateTime.UtcNow;

    /// <summary>
    /// Atualiza a data da última movimentação
    /// </summary>
    public void AtualizarUltimaMovimentacao()
    {
        UltimaMovimentacao = DateTime.UtcNow;
    }".

Definition SOFT_DELETABLE : str := utf8 "ISoftDeletableEntity".
Definition ARCHIVABLE : str := utf8 "IArchivableEntity".
Definition USING_COMMON : str := utf8 "using CoreApp.Domain.Entities.Common;".
Definition COMMON_NAMESPACE : str := utf8 "CoreApp.Domain.Entities.Common".
Definition SOFT_DELETE_SIGNATURE : str := utf8 "public bool Excluido".
Definition ARCHIVABLE_SIGNATURE : str := utf8 "public DateTime UltimaMovimentacao".
Definition USING_PREFIX : str := utf8 "using ".
Definition NAMESPACE_PREFIX : str := utf8 "namespace".

(** ** Regular expressions: the fragment of [re] the script uses

    A backtracking matcher in continuation-passing style, as [re] is: at
    each start position the alternatives are tried in order, [\s*] is
    greedy and gives characters back one at a time, and the first complete
    match wins. *)

Inductive regex : Type :=
| RLit (s : str)                 (* literal characters *)
| RSpaces                        (* \s*  *)
| RSeq (r1 r2 : regex)
| RAlt (r1 r2 : regex)           (* r1|r2 *)
| RGroup (n : nat) (r : regex)   (* capturing group number n *)
| REnd.                          (* $ , without re.MULTILINE *)

Definition captures := list (nat * (nat * nat)).

Fixpoint span (n : nat) (caps : captures) : option (nat * nat) :=
  match caps with
  | [] => None
  | (k, se) :: caps' => if Nat.eqb k n then Some se else span n caps'
  end.

Record mtch : Type := { m_start : nat; m_end : nat; m_groups : captures }.

Definition cont := str -> nat -> captures -> option mtch.

(** [$] matches at the end of the text and just before a final newline. *)
Definition at_end (rest : str) : bool :=
  match rest with
  | [] => true
  | [c] => (c =? NL)%N
  | _ => false
  end.

Fixpoint spaces_greedy (rest : str) (pos : nat)
         (k : str -> nat -> option mtch) : option mtch :=
  match rest with
  | c :: rest' =>
    if isspace c then
      match spaces_greedy rest' (S pos) k with
      | Some m => Some m
      | None => k rest pos
      end
    else k rest pos
  | [] => k rest pos
  end.

Fixpoint rmatch (r : regex) (rest : str) (pos : nat) (caps : captures)
         (k : cont) : option mtch :=
  match r with
  | RLit s =>
    if startswith s rest then k (skipn (length s) rest) (pos + length s) caps
    else None
  | RSpaces => spaces_greedy rest pos (fun rest' pos' => k rest' pos' caps)
  | RSeq r1 r2 =>
    rmatch r1 rest pos caps (fun rest' pos' caps' => rmatch r2 rest' pos' caps' k)
  | RAlt r1 r2 =>
    match rmatch r1 rest pos caps k with
    | Some m => Some m
    | None => rmatch r2 rest pos caps k
    end
  | RGroup n r =>
    rmatch r rest pos caps
           (fun rest' pos' caps' => k rest' pos' ((n, (pos, pos')) :: caps'))
  | REnd => if at_end rest then k rest pos caps else None
  end.

(** [re.match] anchored at [pos], and [re.search]: the leftmost start
    position with a match. *)
Definition match_at (r : regex) (rest : str) (pos : nat) : option mtch :=
  rmatch r rest pos []
         (fun _ pos' caps => Some {| m_start := pos; m_end := pos'; m_groups := caps |}).

Fixpoint search_from (r : regex) (rest : str) (pos : nat) : option mtch :=
  match match_at r rest pos with
  | Some m => Some m
  | None =>
    match rest with
    | [] => None
    | _ :: rest' => search_from r rest' (S pos)
    end
  end.

Definition re_search (r : regex) (content : str) : option mtch :=
  search_from r content 0.

(** [match.group(n)]: [None] when the group took no part in the match. *)
Definition group (content : str) (m : mtch) (n : nat) : option str :=
  match span n (m_groups m) with
  | Some (s, e) => Some (firstn (e - s) (skipn s content))
  | None => None
  end.

(** The words a regular expression matches, as a relation:
    [lang r w rest] when [r] matches [w] in front of [rest]. *)
Inductive lang : regex -> str -> str -> Prop :=
| lang_lit : forall s rest, lang (RLit s) s rest
| lang_spaces : forall w rest, forallb isspace w = true -> lang RSpaces w rest
| lang_seq : forall r1 r2 w1 w2 rest,
    lang r1 w1 (w2 ++ rest) -> lang r2 w2 rest -> lang (RSeq r1 r2) (w1 ++ w2) rest
| lang_alt_l : forall r1 r2 w rest, lang r1 w rest -> lang (RAlt r1 r2) w rest
| lang_alt_r : forall r1 r2 w rest, lang r2 w rest -> lang (RAlt r1 r2) w rest
| lang_group : forall n r w rest, lang r w rest -> lang (RGroup n r) w rest
| lang_end : forall rest, at_end rest = true -> lang REnd [] rest.

Fixpoint group_ids (r : regex) : list nat :=
  match r with
  | RSeq r1 r2 | RAlt r1 r2 => group_ids r1 ++ group_ids r2
  | RGroup n r => n :: group_ids r
  | _ => []
  end.

(** The pattern of both searches: group 1 is [\s*], then a newline, group 2
    is [\s*], then a closing brace, and group 3 is one of
    [\s*\n\s*/// <summary>], [\s*\n\s*public enum] and [\s*\n\s*$]. *)
Definition gap_then (r : regex) : regex :=
  RSeq RSpaces (RSeq (RLit [NL]) (RSeq RSpaces r)).

(** Group 3: what has to follow the closing brace. *)
Definition after_brace : regex :=
  RGroup 3
    (RAlt (gap_then (RLit (utf8 "/// <summary>")))
      (RAlt (gap_then (RLit (utf8 "public enum")))
            (gap_then REnd))).

Definition brace_line : regex :=
  RSeq (RLit [NL]) (RSeq (RGroup 2 RSpaces) (RSeq (RLit [RBRACE]) after_brace)).

Definition pattern : regex := RSeq (RGroup 1 RSpaces) brace_line.

(** ** The per-file transformation *)

(** [line.strip().startswith('using ') and not line.strip().startswith('namespace')] *)
Definition is_using_line (line : str) : bool :=
  startswith USING_PREFIX (strip line)
  && negb (startswith NAMESPACE_PREFIX (strip line)).

Definition needs_using (content : str) : bool :=
  (contains SOFT_DELETABLE content || contains ARCHIVABLE content)
  && negb (contains USING_COMMON content).

(** The body of the first [if]: partition the lines, append the import
    when no import line names the namespace, and join again. *)
Definition regroup_usings (content : str) : str :=
  let lines := split_nl content in
  let (using_lines, other_lines) := partition is_using_line lines in
  let using_lines :=
    if negb (existsb (contains COMMON_NAMESPACE) using_lines)
    then using_lines ++ [USING_COMMON]
    else using_lines in
  join_nl (using_lines ++ other_lines).

Definition normalize_imports (content : str) : str :=
  if needs_using content then regroup_usings content else content.

(** [match.start() + len(match.group(1))] *)
Definition insert_pos (content : str) : option nat :=
  match re_search pattern content with
  | Some m =>
    match group content m 1 with
    | Some g1 => Some (m_start m + length g1)
    | None => None   (* group 1 takes part in every match: [insert_pos_found] *)
    end
  | None => None
  end.

(** [content[:insert_pos] + template + content[insert_pos:]] when the
    search found a match, the content unchanged otherwise. *)
Definition insert_template (template content : str) : str :=
  match insert_pos content with
  | Some p => firstn p content ++ template ++ skipn p content
  | None => content
  end.

Definition soft_delete_gap (content : str) : bool :=
  contains SOFT_DELETABLE content && negb (contains SOFT_DELETE_SIGNATURE content).

Definition archivable_gap (content : str) : bool :=
  contains ARCHIVABLE content && negb (contains ARCHIVABLE_SIGNATURE content).

Definition implement_soft_delete (content : str) : str :=
  if soft_delete_gap content then insert_template SOFT_DELETE_TEMPLATE content
  else content.

Definition implement_archivable (content : str) : str :=
  if archivable_gap content then insert_template ARCHIVABLE_TEMPLATE content
  else content.

(** The text [process_entity_file] ends with, from the text it read. *)
Definition transform (content : str) : str :=
  implement_archivable (implement_soft_delete (normalize_imports content)).

(** ** Files, console and the driver

    [files] gives the text [open(path).read()] returns; a path that cannot
    be read (no file, no permission, bytes that are no UTF-8) has [None] and
    makes the read raise.  [write_fate] says what becomes of writing a text to
    a path.  [writes] records every completed [f.write] and [stdout] every
    [print], both in order; printing is taken to succeed.  An exception
    that escapes is [Raised], with the world as it is at that moment. *)

Inductive fate : Type :=
| Written                (* the file then holds the text *)
| Refused                (* open(path, 'w') raises; the file is as it was *)
| Torn (kept : str).     (* the write raises after the file was truncated;
                            the file holds [kept] *)

Record world : Type := {
  files : str -> option str;
  write_fate : str -> str -> fate;
  writes : list (str * str);
  stdout : list str;
  path_exists : str -> bool;
  os_walk : str -> list (str * list str * list str)
}.

Inductive outcome (A : Type) : Type :=
| Returned (a : A) (w : world)
| Raised (w : world).

Arguments Returned {A} a w.
Arguments Raised {A} w.

Definition write_file (file_path content : str) (w : world) : world :=
  {| files := fun p => if str_eqb p file_path then Some content else files w p;
     write_fate := write_fate w;
     writes := writes w ++ [(file_path, content)];
     stdout := stdout w;
     path_exists := path_exists w;
     os_walk := os_walk w |}.

Definition tear_file (file_path kept : str) (w : world) : world :=
  {| files := fun p => if str_eqb p file_path then Some kept else files w p;
     write_fate := write_fate w;
     writes := writes w;
     stdout := stdout w;
     path_exists := path_exists w;
     os_walk := os_walk w |}.

Definition print (line : str) (w : world) : world :=
  {| files := files w;
     write_fate := write_fate w;
     writes := writes w;
     stdout := stdout w ++ [line];
     path_exists := path_exists w;
     os_walk := os_walk w |}.

Definition process_entity_file (file_path : str) (w : world) : outcome bool :=
  match files w file_path with
  | None => Raised w
  | Some content =>
    let original_content := content in
    let content := normalize_imports content in
    let content := implement_soft_delete content in
    let content := implement_archivable content in
    if negb (str_eqb content original_content) then
      match write_fate w file_path content with
      | Written =>
        Returned true
                 (print (utf8 "Processado: " ++ file_path)
                        (write_file file_path content w))
      | Refused => Raised w
      | Torn kept => Raised (tear_file file_path kept w)
      end
    else Returned false w
  end.

(** [os.path.join(root, file)] *)
Definition path_join (a p : str) : str :=
  if startswith (utf8 "/") p then p
  else if (match a with [] => true | _ => false end) || endswith (utf8 "/") a
       then a ++ p
       else a ++ utf8 "/" ++ p.

Definition str_of_nat (n : nat) : str :=
  utf8 (NilEmpty.string_of_uint (Nat.to_uint n)).

Definition entities_dir : str := utf8 "CoreApp.Domain/Entities".

(** The inner loop of [main]: the files of one directory. *)
Fixpoint process_files (root : str) (file_names : list str) (w : world)
         (files_processed : nat) : outcome nat :=
  match file_names with
  | [] => Returned files_processed w
  | file :: rest =>
    if endswith (utf8 ".cs") file then
      match process_entity_file (path_join root file) w with
      | Raised w' => Raised w'
      | Returned true w' => process_files root rest w' (files_processed + 1)
      | Returned false w' => process_files root rest w' files_processed
      end
    else process_files root rest w files_processed
  end.

(** The outer loop of [main]: the triples [os.walk] yields. *)
Fixpoint process_tree (entries : list (str * list str * list str)) (w : world)
         (files_processed : nat) : outcome nat :=
  match entries with
  | [] => Returned files_processed w
  | (root, _, file_names) :: rest =>
    match process_files root file_names w files_processed with
    | Raised w' => Raised w'
    | Returned n w' => process_tree rest w' n
    end
  end.

Definition main (w : world) : outcome unit :=
  if negb (path_exists w entities_dir) then
    Returned tt
             (print (utf8 "Diretório " ++ entities_dir ++ utf8 " não encontrado") w)
  else
    match process_tree (os_walk w entities_dir) w 0 with
    | Raised w' => Raised w'
    | Returned files_processed w' =>
      Returned tt
               (print (utf8 "
Processamento concluído! " ++ str_of_nat files_processed
                      ++ utf8 " arquivos modificados.") w')
    end.

(** The paths [main] hands to [process_entity_file], in order. *)
Definition cs_paths (entries : list (str * list str * list str)) : list str :=
  flat_map (fun e : str * list str * list str =>
              let '(root, _, file_names) := e in
              map (path_join root) (filter (endswith (utf8 ".cs")) file_names))
           entries.

(** ** Notions the statements use *)

(** A place where the pattern can match: the text is [a], a newline, the
    white space [g2], a closing brace and [tail], and [tail] starts with a
    word of group 3. *)
Definition closing_site (content a g2 tail : str) : Prop :=
  content = a ++ NL :: g2 ++ RBRACE :: tail
  /\ forallb isspace g2 = true
  /\ exists w3 rest, tail = w3 ++ rest /\ lang after_brace w3 rest.

Definition not_using_line (line : str) : bool := negb (is_using_line line).

(** The import lines of a text and its other lines, in their order. *)
Definition using_lines (content : str) : list str :=
  filter is_using_line (split_nl content).

Definition other_lines (content : str) : list str :=
  filter not_using_line (split_nl content).

(** Every import line stands before every other line. *)
Definition usings_first (lines : list str) : Prop :=
  filter is_using_line lines ++ filter not_using_line lines = lines.

(** Whether the regrouping appends the import: no import line names the
    namespace yet. *)
Definition import_missing (content : str) : bool :=
  negb (existsb (contains COMMON_NAMESPACE) (using_lines content)).

(** The import lines after the regrouping. *)
Definition regrouped_usings (content : str) : list str :=
  if import_missing content then using_lines content ++ [USING_COMMON]
  else using_lines content.

(** The templates start with a newline; what follows it. *)
Definition soft_delete_body : str := tl SOFT_DELETE_TEMPLATE.
Definition archivable_body : str := tl ARCHIVABLE_TEMPLATE.

Definition has_marker (content : str) : bool :=
  contains SOFT_DELETABLE content || contains ARCHIVABLE content.

(** A text the import step leaves alone: the import is there, or no marker
    is, or the import lines already lead and one of them names the
    namespace. *)
Definition imports_settled (content : str) : Prop :=
  contains USING_COMMON content = true
  \/ has_marker content = false
  \/ (usings_first (split_nl content) /\ import_missing content = false).

(** A world for examples: the listed files, the entities directory with
    the given [os.walk] listing, nothing written or printed yet, every write succeeding. *)
Fixpoint lookup_file (fs : list (str * str)) (p : str) : option str :=
  match fs with
  | [] => None
  | (q, content) :: fs' => if str_eqb p q then Some content else lookup_file fs' p
  end.

Definition example_world (tree : list (str * list str * list str))
           (fs : list (str * str)) : world :=
  {| files := lookup_file fs;
     write_fate := fun _ _ => Written;
     writes := [];
     stdout := [];
     path_exists := fun p => str_eqb p entities_dir;
     os_walk := fun d => if str_eqb d entities_dir then tree else [] |}.


Definition produto_path : str := utf8 "CoreApp.Domain/Entities/Produto.cs".

(** An entity that declares the soft-delete contract and lacks its members. *)
Definition produto_text : str := utf8 "using CoreApp.Domain.Entities.Common;

public class Produto : ISoftDeletableEntity
{
    public int Id { get; set; }
}
".

(** The output has the import lines of the input followed by the one added
    import, and they stand before every other line. *)
Definition one_import_added (before after : str) : Prop :=
  using_lines after = using_lines before ++ [USING_COMMON]
  /\ usings_first (split_nl after).

(** An entity whose imports name a sub-namespace of the required one. *)
Definition pedido_text : str := utf8 "using System;
using CoreApp.Domain.Entities.Common.Interfaces;

public class Pedido : ISoftDeletableEntity
{
    public int Id { get; set; }
}
".

(** An entity file that ends at its closing brace, with no final newline. *)
Definition cliente_text : str := utf8 "using System;

public class Cliente : ISoftDeletableEntity
{
    public int Id { get; set; }
}".

(** Nesting depth of braces at the end of a prefix of the text. *)
Definition LBRACE : char := 123%N.     (* '{' *)

Definition count_char (c : char) (s : str) : nat :=
  length (filter (N.eqb c) s).

Definition brace_depth (s : str) : nat :=
  count_char LBRACE s - count_char RBRACE s.

(** An entity with a method followed by a documented member. *)
Definition categoria_text : str := utf8 "using CoreApp.Domain.Entities.Common;

public class Categoria : ISoftDeletableEntity
{
    public int Id { get; set; }

    public void Ativar()
    {
        Ativo = true;
    }

    /// <summary>
    /// Nome da categoria
    /// </summary>
    public string Nome { get; set; }
}
".

(** An entity that declares both contracts and has neither implemented. *)
Definition fornecedor_text : str := utf8 "using CoreApp.Domain.Entities.Common;

public class Fornecedor : ISoftDeletableEntity, IArchivableEntity
{
    public int Id { get; set; }
}
".

(** The two loops of [main] as one loop over the paths they visit. *)
Fixpoint process_paths (paths : list str) (w : world) (files_processed : nat)
  : outcome nat :=
  match paths with
  | [] => Returned files_processed w
  | file_path :: rest =>
    match process_entity_file file_path w with
    | Raised w' => Raised w'
    | Returned true w' => process_paths rest w' (files_processed + 1)
    | Returned false w' => process_paths rest w' files_processed
    end
  end.





Definition estoque_path : str := utf8 "CoreApp.Domain/Entities/Estoque/Fornecedor.cs".

(** The entities directory with one sub-directory, as [os.walk] lists it
    top down, and the same triples in the other order. *)
Definition example_tree : list (str * list str * list str) :=
  [ (entities_dir, [utf8 "Estoque"], [utf8 "Produto.cs"; utf8 "LEIAME.txt"]);
    (utf8 "CoreApp.Domain/Entities/Estoque", [], [utf8 "Fornecedor.cs"]) ].

Definition example_files : list (str * str) :=
  [ (produto_path, produto_text); (estoque_path, fornecedor_text) ].

(** An entity that declares the soft-delete contract, lacks its members
    and lacks the import. *)
Definition servico_text : str := utf8 "using System;

public class Servico : ISoftDeletableEntity
{
    public int Id { get; set; }
}
".

(** ** Notions of the further properties *)

(** Whether the search finds an insertion point. *)
Definition site_found (content : str) : bool :=
  match insert_pos content with Some _ => true | None => false end.

(** The lines a run adds to a text: the import, when the import step
    appends it, and the lines of each template that is spliced in. *)
Definition added_lines (t : str) : list str :=
  let c0 := normalize_imports t in
  let c1 := implement_soft_delete c0 in
  (if needs_using t && import_missing t then [USING_COMMON] else [])
  ++ (if soft_delete_gap c0 && site_found c0
      then split_nl soft_delete_body else [])
  ++ (if archivable_gap c1 && site_found c1
      then split_nl archivable_body else []).

(** The line [process_entity_file] prints for a write. *)
Definition report_line (written : str * str) : str :=
  utf8 "Processado: " ++ fst written.

(** The last line [main] prints. *)
Definition summary_line (files_processed : nat) : str :=
  utf8 "
Processamento concluído! " ++ str_of_nat files_processed
       ++ utf8 " arquivos modificados.".

Definition missing_dir_line : str :=
  utf8 "Diretório " ++ entities_dir ++ utf8 " não encontrado".

(** A write of this run: to a visited path, of the transformed text of the
    file as it was at the start, which differed from it. *)
Definition write_of (paths : list str) (w : world) (written : str * str) : Prop :=
  In (fst written) paths
  /\ option_map transform (files w (fst written)) = Some (snd written)
  /\ files w (fst written) <> Some (snd written).

Definition example_start : world := example_world example_tree example_files.

(** The world [main] leaves when it is run on [example_start]. *)
Definition example_result : world :=
  match main example_start with
  | Returned _ w' => w'
  | Raised w' => w'
  end.




(** * Properties *)

(** ** Text: equality, substrings, lines *)

Lemma str_eqb_eq (a b : str) : str_eqb a b = true <-> a = b.
Proof.
  revert b; induction a as [|x a IH]; intros [|y b]; simpl;
    try (split; [discriminate | congruence]); try tauto.
  rewrite andb_true_iff, N.eqb_eq, IH. split.
  - intros [-> ->]; reflexivity.
  - intros H; inversion H; auto.
Qed.

Lemma str_eqb_refl (a : str) : str_eqb a a = true.
Proof. apply str_eqb_eq; reflexivity. Qed.

Lemma str_eqb_neq (a b : str) : str_eqb a b = false <-> a <> b.
Proof.
  rewrite <- str_eqb_eq. destruct (str_eqb a b); split; congruence.
Qed.

Lemma startswith_app (p s : str) : startswith p (p ++ s) = true.
Proof. induction p; simpl; auto. rewrite N.eqb_refl; auto. Qed.

Lemma startswith_prefix (p s : str) :
  startswith p s = true -> s = p ++ skipn (length p) s.
Proof.
  revert s; induction p as [|x p IH]; intros s H; simpl in *; auto.
  destruct s as [|y s]; [discriminate|].
  apply andb_true_iff in H as [E H]. apply N.eqb_eq in E; subst y.
  f_equal; auto.
Qed.

Lemma startswith_app_nl (n a b : str) :
  ~ In NL n -> startswith n (a ++ NL :: b) = startswith n a.
Proof.
  revert a; induction n as [|x n IH]; intros a Hn; simpl; auto.
  destruct a as [|y a]; simpl.
  - destruct (N.eqb_spec x NL) as [->|]; auto. exfalso; apply Hn; left; auto.
  - rewrite IH; auto. intros H; apply Hn; right; auto.
Qed.

Lemma contains_nil_r (n : str) : contains n [] = startswith n [].
Proof. simpl; apply orb_false_r. Qed.

Lemma contains_app_nl (n a b : str) :
  ~ In NL n -> contains n (a ++ NL :: b) = contains n a || contains n b.
Proof.
  intros Hn; induction a as [|y a IH].
  - change ([] ++ NL :: b) with (NL :: b).
    change (contains n (NL :: b))
      with (startswith n ([] ++ NL :: b) || contains n b).
    rewrite startswith_app_nl, contains_nil_r; auto.
  - change (contains n ((y :: a) ++ NL :: b))
      with (startswith n ((y :: a) ++ NL :: b) || contains n (a ++ NL :: b)).
    rewrite startswith_app_nl, IH by auto. simpl. apply orb_assoc.
Qed.

Lemma contains_startswith (n s : str) :
  startswith n s = true -> contains n s = true.
Proof. destruct s; simpl; intros ->; reflexivity. Qed.

Lemma contains_intro (n a b : str) : contains n (a ++ n ++ b) = true.
Proof.
  induction a as [|y a IH].
  - cbn [app]. apply contains_startswith, startswith_app.
  - simpl. rewrite IH; apply orb_true_r.
Qed.

Lemma contains_elim (n s : str) :
  contains n s = true -> exists a b, s = a ++ n ++ b.
Proof.
  induction s as [|y s IH]; simpl; intros H.
  - rewrite orb_false_r in H. exists [], []. destruct n; [reflexivity | discriminate].
  - apply orb_true_iff in H as [H|H].
    + exists [], (skipn (length n) (y :: s)). simpl. now apply startswith_prefix.
    + destruct (IH H) as (a & b & ->). exists (y :: a), b; reflexivity.
Qed.

Lemma split_nl_nonempty (s : str) : split_nl s <> [].
Proof.
  induction s as [|c s IH]; simpl; [discriminate|].
  destruct (c =? NL)%N; [discriminate|].
  destruct (split_nl s); [contradiction | discriminate].
Qed.

Lemma split_nl_cons (c : char) (s : str) :
  c <> NL -> exists l ls, split_nl s = l :: ls /\ split_nl (c :: s) = (c :: l) :: ls.
Proof.
  intros Hc. simpl. apply N.eqb_neq in Hc; rewrite Hc.
  destruct (split_nl s) as [|l ls] eqn:E.
  - exfalso; exact (split_nl_nonempty s E).
  - exists l, ls; auto.
Qed.

Lemma split_nl_app (a b : str) :
  split_nl (a ++ NL :: b) = split_nl a ++ split_nl b.
Proof.
  induction a as [|c a IH]; [reflexivity|].
  destruct (N.eq_dec c NL) as [->|Hc]; simpl.
  - rewrite IH; reflexivity.
  - apply N.eqb_neq in Hc; rewrite Hc, IH.
    destruct (split_nl a) eqn:E; [exfalso; exact (split_nl_nonempty a E)|].
    reflexivity.
Qed.

Lemma split_nl_no_nl (s : str) : Forall (fun l => ~ In NL l) (split_nl s).
Proof.
  induction s as [|c s IH]; simpl.
  - constructor; auto.
  - destruct (N.eqb_spec c NL) as [->|Hc].
    + constructor; auto.
    + destruct (split_nl s) as [|l ls]; [repeat constructor; simpl; intuition|].
      inversion IH; subst. constructor; auto. simpl; intuition.
Qed.

Lemma split_nl_line (s : str) : ~ In NL s -> split_nl s = [s].
Proof.
  induction s as [|c s IH]; intros H; [reflexivity|].
  simpl. destruct (N.eqb_spec c NL) as [->|Hc].
  - exfalso; apply H; left; auto.
  - rewrite IH; auto. intros H'; apply H; right; auto.
Qed.

Lemma join_nl_cons (l : str) (ls : list str) :
  ls <> [] -> join_nl (l :: ls) = l ++ NL :: join_nl ls.
Proof. destruct ls; [contradiction | reflexivity]. Qed.

Lemma join_split (s : str) : join_nl (split_nl s) = s.
Proof.
  induction s as [|c s IH]; [reflexivity|].
  simpl. destruct (N.eqb_spec c NL) as [->|Hc].
  - rewrite join_nl_cons by apply split_nl_nonempty. rewrite IH; reflexivity.
  - destruct (split_nl s) as [|l ls] eqn:E;
      [exfalso; exact (split_nl_nonempty s E)|].
    rewrite <- IH. destruct ls; reflexivity.
Qed.

Lemma split_join (ls : list str) :
  ls <> [] -> Forall (fun l => ~ In NL l) ls -> split_nl (join_nl ls) = ls.
Proof.
  induction ls as [|l ls IH]; intros Hne Hall; [contradiction|].
  inversion Hall; subst.
  destruct ls as [|l' ls'].
  - simpl. apply split_nl_line; auto.
  - rewrite join_nl_cons by discriminate.
    rewrite split_nl_app, split_nl_line, IH by (auto; discriminate).
    reflexivity.
Qed.

Lemma contains_lines (n s : str) :
  ~ In NL n -> contains n s = existsb (contains n) (split_nl s).
Proof.
  intros Hn.
  assert (G : forall ls, ls <> [] -> Forall (fun l => ~ In NL l) ls ->
              contains n (join_nl ls) = existsb (contains n) ls).
  { induction ls as [|l ls IH]; intros Hne Hall; [contradiction|].
    inversion Hall; subst. destruct ls as [|l' ls'].
    - simpl. now rewrite orb_false_r.
    - rewrite join_nl_cons by discriminate.
      rewrite contains_app_nl, IH by (auto; discriminate). reflexivity. }
  rewrite <- (join_split s) at 1.
  apply G; [apply split_nl_nonempty | apply split_nl_no_nl].
Qed.

(** ** The matcher against the words of a regular expression *)

Lemma spaces_greedy_sound rest pos k m :
  spaces_greedy rest pos k = Some m ->
  exists w rest', rest = w ++ rest' /\ forallb isspace w = true
                  /\ k rest' (pos + length w) = Some m.
Proof.
  revert pos; induction rest as [|c rest IH]; intros pos H; simpl in H.
  - exists [], []. rewrite Nat.add_0_r; auto.
  - destruct (isspace c) eqn:Ec.
    + destruct (spaces_greedy rest (S pos) k) eqn:E.
      * injection H as ->. destruct (IH _ E) as (w & rest' & -> & Hw & Hk).
        exists (c :: w), rest'. simpl. rewrite Ec, Hw.
        rewrite Nat.add_succ_r; auto.
      * exists [], (c :: rest). rewrite Nat.add_0_r; auto.
    + exists [], (c :: rest). rewrite Nat.add_0_r; auto.
Qed.

Lemma spaces_greedy_complete w rest' pos k :
  forallb isspace w = true ->
  k rest' (pos + length w) <> None ->
  spaces_greedy (w ++ rest') pos k <> None.
Proof.
  revert pos; induction w as [|c w IH]; intros pos Hw Hk; simpl in *.
  - rewrite Nat.add_0_r in Hk.
    destruct rest' as [|c rest']; simpl; auto.
    destruct (isspace c); auto.
    destruct (spaces_greedy rest' (S pos) k); [discriminate | auto].
  - apply andb_true_iff in Hw as [Ec Hw]. rewrite Ec.
    rewrite Nat.add_succ_r in Hk. specialize (IH (S pos) Hw Hk).
    destruct (spaces_greedy (w ++ rest') (S pos) k); [discriminate | contradiction].
Qed.

Lemma span_cons_other n n' se caps :
  n <> n' -> span n' ((n, se) :: caps) = span n' caps.
Proof. intros H; simpl. apply Nat.eqb_neq in H; rewrite H; reflexivity. Qed.

Lemma rmatch_sound r : forall rest pos caps k m,
  rmatch r rest pos caps k = Some m ->
  exists w rest' caps',
    rest = w ++ rest' /\ lang r w rest'
    /\ (forall n, ~ In n (group_ids r) -> span n caps' = span n caps)
    /\ k rest' (pos + length w) caps' = Some m.
Proof.
  induction r as [s| |r1 IH1 r2 IH2|r1 IH1 r2 IH2|g r IH|];
    intros rest pos caps k m H; simpl in H.
  - destruct (startswith s rest) eqn:E; [|discriminate].
    exists s, (skipn (length s) rest), caps.
    split; [now apply startswith_prefix|]. split; [constructor|]. auto.
  - apply spaces_greedy_sound in H as (w & rest' & -> & Hw & Hk).
    exists w, rest', caps. split; auto. split; [now constructor|]. auto.
  - apply IH1 in H as (w1 & rest1 & caps1 & -> & L1 & F1 & H).
    apply IH2 in H as (w2 & rest2 & caps2 & -> & L2 & F2 & H).
    exists (w1 ++ w2), rest2, caps2. rewrite <- app_assoc. split; auto.
    split; [now constructor|]. split.
    + intros n Hn; simpl in Hn. rewrite in_app_iff in Hn.
      rewrite F2, F1; tauto.
    + rewrite length_app, Nat.add_assoc; auto.
  - destruct (rmatch r1 rest pos caps k) eqn:E.
    + injection H as ->. apply IH1 in E as (w & rest' & caps' & -> & L & F & H).
      exists w, rest', caps'. split; auto. split; [now apply lang_alt_l|].
      split; auto. intros n Hn; apply F. simpl in Hn; rewrite in_app_iff in Hn; tauto.
    + apply IH2 in H as (w & rest' & caps' & -> & L & F & H).
      exists w, rest', caps'. split; auto. split; [now apply lang_alt_r|].
      split; auto. intros n Hn; apply F. simpl in Hn; rewrite in_app_iff in Hn; tauto.
  - apply IH in H as (w & rest' & caps' & -> & L & F & H).
    exists w, rest', ((g, (pos, pos + length w)) :: caps').
    split; auto. split; [now constructor|]. split; auto.
    intros n Hn; simpl in Hn. rewrite span_cons_other by tauto. apply F; tauto.
  - destruct (at_end rest) eqn:E; [|discriminate].
    exists [], rest, caps. rewrite Nat.add_0_r.
    split; auto. split; [now constructor|]. auto.
Qed.

Lemma rmatch_complete r : forall w rest' pos caps k,
  lang r w rest' ->
  (forall caps', k rest' (pos + length w) caps' <> None) ->
  rmatch r (w ++ rest') pos caps k <> None.
Proof.
  intros w rest' pos caps k L; revert pos caps k.
  induction L as [s rest|w rest Hw|r1 r2 w1 w2 rest L1 IH1 L2 IH2
                  |r1 r2 w rest L IH|r1 r2 w rest L IH|g r w rest L IH|rest He];
    intros pos caps k Hk; simpl.
  - rewrite startswith_app.
    replace (skipn (length s) (s ++ rest)) with rest; [apply Hk|].
    clear; induction s; simpl; auto.
  - apply spaces_greedy_complete; auto.
  - rewrite <- app_assoc. apply IH1. intros caps1. apply IH2.
    intros caps2. rewrite <- Nat.add_assoc, <- length_app. apply Hk.
  - specialize (IH pos caps k Hk).
    destruct (rmatch r1 (w ++ rest) pos caps k); [discriminate | contradiction].
  - destruct (rmatch r1 (w ++ rest) pos caps k); [discriminate | now apply IH].
  - apply IH. intros caps'. apply Hk.
  - rewrite He. rewrite Nat.add_0_r in Hk. apply Hk.
Qed.

(** [re.search]: a match starts where the text splits into what is skipped
    and a word of the pattern, and no earlier start has a match. *)
Lemma search_from_sound r : forall rest pos m,
  search_from r rest pos = Some m ->
  exists pre rest1,
    rest = pre ++ rest1 /\ match_at r rest1 (pos + length pre) = Some m
    /\ forall a b, rest = a ++ b -> length a < length pre ->
                   match_at r b (pos + length a) = None.
Proof.
  induction rest as [|c rest IH]; intros pos m H; simpl in H.
  - destruct (match_at r [] pos) eqn:E; [|discriminate].
    injection H as ->.
    exists [], []. rewrite Nat.add_0_r. repeat split; auto.
    simpl; intros; lia.
  - destruct (match_at r (c :: rest) pos) eqn:E.
    + injection H as ->.
      exists [], (c :: rest). rewrite Nat.add_0_r. repeat split; auto.
      simpl; intros; lia.
    + apply IH in H as (pre & rest1 & -> & Hm & Hleft).
      exists (c :: pre), rest1. simpl. rewrite Nat.add_succ_r. repeat split; auto.
      intros a b Hab Hlen. destruct a as [|x a]; simpl in *.
      * subst b. rewrite Nat.add_0_r; auto.
      * injection Hab as -> Hab. rewrite Nat.add_succ_r.
        apply (Hleft a b); auto; lia.
Qed.

Lemma search_from_complete r : forall pre rest1 pos,
  match_at r rest1 (pos + length pre) <> None ->
  search_from r (pre ++ rest1) pos <> None.
Proof.
  induction pre as [|c pre IH]; intros rest1 pos H.
  - simpl in *. rewrite Nat.add_0_r in H.
    destruct rest1; simpl; destruct (match_at r _ pos); congruence.
  - simpl in *. destruct (match_at r (c :: pre ++ rest1) pos); [discriminate|].
    apply IH. rewrite Nat.add_succ_r in H; auto.
Qed.

Lemma lang_seq_inv r1 r2 w rest :
  lang (RSeq r1 r2) w rest ->
  exists w1 w2, w = w1 ++ w2 /\ lang r1 w1 (w2 ++ rest) /\ lang r2 w2 rest.
Proof. inversion 1; subst; eauto. Qed.

Lemma lang_lit_inv s w rest : lang (RLit s) w rest -> w = s.
Proof. inversion 1; auto. Qed.

Lemma lang_spaces_inv w rest : lang RSpaces w rest -> forallb isspace w = true.
Proof. inversion 1; auto. Qed.

Lemma lang_group_inv n r w rest : lang (RGroup n r) w rest -> lang r w rest.
Proof. inversion 1; auto. Qed.

Lemma lang_alt_inv r1 r2 w rest :
  lang (RAlt r1 r2) w rest -> lang r1 w rest \/ lang r2 w rest.
Proof. inversion 1; auto. Qed.

Lemma lang_end_inv w rest : lang REnd w rest -> w = [] /\ at_end rest = true.
Proof. inversion 1; auto. Qed.

Lemma lang_brace_line w rest :
  lang brace_line w rest <->
  exists g2 w3, w = NL :: g2 ++ RBRACE :: w3 /\ forallb isspace g2 = true
                /\ lang after_brace w3 rest.
Proof.
  unfold brace_line; split.
  - intros H.
    apply lang_seq_inv in H as (w1 & w' & -> & H1 & H).
    apply lang_seq_inv in H as (g2 & w'' & -> & H2 & H).
    apply lang_seq_inv in H as (b & w3 & -> & H3 & H).
    apply lang_lit_inv in H1, H3; subst.
    apply lang_group_inv, lang_spaces_inv in H2.
    exists g2, w3; auto.
  - intros (g2 & w3 & -> & Hg & H).
    apply (lang_seq (RLit [NL]) _ [NL]); [constructor|].
    apply lang_seq; [constructor; now constructor|].
    apply (lang_seq (RLit [RBRACE]) _ [RBRACE]); [constructor | auto].
Qed.

Lemma rmatch_group1 R rest pos caps k m :
  ~ In 1 (group_ids R) ->
  rmatch (RSeq (RGroup 1 RSpaces) R) rest pos caps k = Some m ->
  exists g1 w rest' caps',
    rest = g1 ++ w ++ rest' /\ forallb isspace g1 = true /\ lang R w rest'
    /\ span 1 caps' = Some (pos, pos + length g1)
    /\ k rest' (pos + length g1 + length w) caps' = Some m.
Proof.
  intros Hid H; simpl in H.
  apply spaces_greedy_sound in H as (g1 & rest1 & -> & Hg & H).
  apply rmatch_sound in H as (w & rest' & caps' & -> & L & F & H).
  exists g1, w, rest', caps'. repeat split; auto.
Qed.

Lemma firstn_length_app {A} (a b : list A) : firstn (length a) (a ++ b) = a.
Proof. induction a; simpl; congruence. Qed.

Lemma skipn_length_app {A} (a b : list A) : skipn (length a) (a ++ b) = b.
Proof. induction a; simpl; congruence. Qed.

(** Where the template goes: at a newline that white space and a closing
    brace follow. *)
Lemma insert_pos_sound content p :
  insert_pos content = Some p ->
  exists a g2 tail, closing_site content a g2 tail /\ length a = p.
Proof.
  unfold insert_pos, re_search.
  destruct (search_from pattern content 0) as [m|] eqn:E; [|discriminate].
  apply search_from_sound in E as (pre & rest1 & -> & E & _).
  unfold match_at, pattern in E.
  apply rmatch_group1 in E as (g1 & w & rest' & caps' & -> & Hg1 & L & Hs & E);
    [|simpl; intuition discriminate].
  injection E as <-. unfold group; simpl. rewrite Hs.
  intros H; injection H as <-.
  apply lang_brace_line in L as (g2 & w3 & -> & Hg2 & L).
  exists (pre ++ g1), g2, (w3 ++ rest'). split.
  - split; [|split; eauto]. rewrite <- !app_assoc. simpl. rewrite <- app_assoc.
    reflexivity.
  - rewrite skipn_length_app.
    replace (length pre + length g1 - length pre) with (length g1) by lia.
    rewrite firstn_length_app, length_app. reflexivity.
Qed.

Lemma insert_pos_complete content a g2 tail :
  closing_site content a g2 tail -> insert_pos content <> None.
Proof.
  intros (-> & Hg & w3 & rest & -> & L).
  unfold insert_pos, re_search.
  destruct (search_from pattern _ 0) as [m|] eqn:E.
  - apply search_from_sound in E as (pre & rest1 & Hc & E & _).
    unfold match_at, pattern in E.
    apply rmatch_group1 in E as (g1 & w & rest' & caps' & _ & _ & _ & Hs & E);
      [|simpl; intuition discriminate].
    injection E as <-. unfold group; simpl. rewrite Hs. discriminate.
  - exfalso; revert E. apply search_from_complete.
    unfold match_at, pattern.
    change (NL :: g2 ++ RBRACE :: w3 ++ rest)
      with ([] ++ (NL :: g2 ++ RBRACE :: w3 ++ rest)).
    replace (NL :: g2 ++ RBRACE :: w3 ++ rest)
      with ((NL :: g2 ++ RBRACE :: w3) ++ rest)
      by (simpl; rewrite <- app_assoc; reflexivity).
    apply (rmatch_complete (RSeq (RGroup 1 RSpaces) brace_line)
                           ([] ++ (NL :: g2 ++ RBRACE :: w3))).
    + apply lang_seq; [constructor; now constructor|].
      apply lang_brace_line; eauto.
    + discriminate.
Qed.

(** ** Import lines *)

Lemma lstrip_space c s : isspace c = true -> lstrip (c :: s) = lstrip s.
Proof. intros H; simpl; rewrite H; reflexivity. Qed.

Lemma lstrip_spaces g s : forallb isspace g = true -> lstrip (g ++ s) = lstrip s.
Proof.
  induction g as [|c g IH]; simpl; auto.
  intros H; apply andb_true_iff in H as [-> H]; auto.
Qed.

Lemma rstrip_cons c s : isspace c = false -> rstrip (c :: s) = c :: rstrip s.
Proof. intros H; simpl. rewrite H. destruct (rstrip s); reflexivity. Qed.

Lemma not_using_brace g r :
  forallb isspace g = true -> is_using_line (g ++ RBRACE :: r) = false.
Proof.
  intros H. unfold is_using_line, strip.
  rewrite lstrip_spaces by auto. simpl lstrip.
  rewrite rstrip_cons by reflexivity. reflexivity.
Qed.

Lemma is_using_line_space c l :
  isspace c = true -> is_using_line (c :: l) = is_using_line l.
Proof. intros H. unfold is_using_line, strip. rewrite lstrip_space; auto. Qed.

(** The line that starts right after the insertion point is no import line. *)
Lemma brace_line_head g2 tail :
  forallb isspace g2 = true ->
  exists l ls, split_nl (g2 ++ RBRACE :: tail) = l :: ls /\ is_using_line l = false.
Proof.
  induction g2 as [|c g IH]; intros H.
  - destruct (split_nl_cons RBRACE tail) as (l & ls & _ & E); [discriminate|].
    exists (RBRACE :: l), ls. split; auto.
    apply (not_using_brace []); reflexivity.
  - simpl in H. apply andb_true_iff in H as [Hc H].
    destruct (IH H) as (l & ls & E & Hl).
    destruct (N.eq_dec c NL) as [->|Hn].
    + exists [], (l :: ls). simpl. rewrite E. auto.
    + destruct (split_nl_cons c (g ++ RBRACE :: tail) Hn) as (l' & ls' & E' & E'').
      rewrite E in E'; injection E' as <- <-.
      exists (c :: l), ls. split; auto. rewrite is_using_line_space; auto.
Qed.

Lemma filter_all {A} (f : A -> bool) l : forallb f l = true -> filter f l = l.
Proof.
  induction l as [|x l IH]; simpl; auto.
  intros H; apply andb_true_iff in H as [-> H]. f_equal; auto.
Qed.

Lemma filter_none {A} (f : A -> bool) l :
  forallb (fun x => negb (f x)) l = true -> filter f l = [].
Proof.
  induction l as [|x l IH]; simpl; auto.
  intros H; apply andb_true_iff in H as [E H]. apply negb_true_iff in E.
  rewrite E; auto.
Qed.

Lemma forallb_filter {A} (f : A -> bool) l : forallb f (filter f l) = true.
Proof.
  induction l as [|x l IH]; simpl; auto.
  destruct (f x) eqn:E; simpl; auto. rewrite E; auto.
Qed.

Lemma usings_first_intro us os :
  forallb is_using_line us = true -> forallb not_using_line os = true ->
  filter is_using_line (us ++ os) = us
  /\ filter not_using_line (us ++ os) = os
  /\ usings_first (us ++ os).
Proof.
  intros Hu Ho.
  assert (E1 : filter is_using_line (us ++ os) = us).
  { rewrite filter_app, (filter_all _ _ Hu), (filter_none is_using_line os Ho).
    apply app_nil_r. }
  assert (E2 : filter not_using_line (us ++ os) = os).
  { rewrite filter_app, (filter_all _ _ Ho).
    rewrite (filter_none not_using_line us); auto.
    rewrite <- Hu. clear. induction us as [|u us IH]; simpl; auto.
    unfold not_using_line at 1. rewrite negb_involutive, IH. reflexivity. }
  unfold usings_first. rewrite E1, E2. auto.
Qed.

(** Lines that are no import lines, entered in front of a line that is
    none, leave the import lines where they are. *)
Lemma usings_first_insert l1 x l2 mid :
  usings_first (l1 ++ x :: l2) -> is_using_line x = false ->
  forallb not_using_line mid = true ->
  usings_first (l1 ++ mid ++ x :: l2)
  /\ filter is_using_line (l1 ++ mid ++ x :: l2)
     = filter is_using_line (l1 ++ x :: l2).
Proof.
  intros Hf Hx Hmid.
  assert (Hl2 : forallb not_using_line (x :: l2) = true).
  { unfold usings_first in Hf.
    set (us := filter is_using_line (l1 ++ x :: l2)) in *.
    set (os := filter not_using_line (l1 ++ x :: l2)) in *.
    assert (Hu : forallb is_using_line us = true) by apply forallb_filter.
    assert (Ho : forallb not_using_line os = true) by apply forallb_filter.
    clearbody us os. revert l1 Hf.
    induction us as [|u us IH]; intros l1 Hf; simpl in *.
    - subst os. rewrite forallb_app in Ho. apply andb_true_iff in Ho; tauto.
    - apply andb_true_iff in Hu as [Hu1 Hu].
      destruct l1 as [|y l1]; simpl in Hf; injection Hf as -> Hf.
      + congruence.
      + apply (IH Hu l1); auto. }
  assert (E : filter is_using_line (l1 ++ mid ++ x :: l2)
              = filter is_using_line (l1 ++ x :: l2)).
  { rewrite !filter_app. rewrite (filter_none is_using_line mid Hmid).
    reflexivity. }
  split; auto.
  unfold usings_first in *. rewrite E.
  rewrite !filter_app in *.
  rewrite (filter_none is_using_line (x :: l2) Hl2) in *.
  rewrite (filter_all _ _ Hl2), (filter_all _ _ Hmid) in *.
  rewrite app_nil_r in *.
  rewrite app_assoc in Hf. apply app_inv_tail in Hf.
  rewrite app_assoc, Hf. reflexivity.
Qed.

Lemma regroup_usings_eq content :
  regroup_usings content = join_nl (regrouped_usings content ++ other_lines content).
Proof.
  unfold regroup_usings, regrouped_usings, import_missing, using_lines, other_lines.
  rewrite partition_as_filter. reflexivity.
Qed.

Lemma no_nl_filter (f : str -> bool) ls :
  Forall (fun l => ~ In NL l) ls -> Forall (fun l => ~ In NL l) (filter f ls).
Proof.
  induction 1; simpl; auto. destruct (f x); auto.
Qed.

Lemma no_nl_check (s : str) :
  forallb (fun c => negb (c =? NL)%N) s = true -> ~ In NL s.
Proof.
  induction s as [|c s IH]; simpl; [tauto|].
  intros H [E|E]; apply andb_true_iff in H as [Hc H].
  - subst c. discriminate.
  - now apply IH.
Qed.

Lemma using_common_no_nl : ~ In NL USING_COMMON.
Proof. apply no_nl_check; reflexivity. Qed.

Lemma using_other_nonempty content : using_lines content ++ other_lines content <> [].
Proof.
  unfold using_lines, other_lines, not_using_line.
  destruct (split_nl content) as [|l ls] eqn:E.
  - exfalso; exact (split_nl_nonempty content E).
  - simpl. destruct (is_using_line l); simpl; [discriminate|].
    destruct (filter is_using_line ls); discriminate.
Qed.

Lemma regrouped_nonempty content : regrouped_usings content ++ other_lines content <> [].
Proof.
  unfold regrouped_usings. destruct (import_missing content).
  - destruct (using_lines content); discriminate.
  - apply using_other_nonempty.
Qed.

(** The lines of the regrouped text. *)
Lemma regroup_lines content :
  split_nl (regroup_usings content)
  = regrouped_usings content ++ other_lines content.
Proof.
  rewrite regroup_usings_eq. apply split_join; [apply regrouped_nonempty|].
  apply Forall_app; split.
  - unfold regrouped_usings. destruct (import_missing content).
    + apply Forall_app; split.
      * apply no_nl_filter, split_nl_no_nl.
      * repeat constructor. apply using_common_no_nl.
    + apply no_nl_filter, split_nl_no_nl.
  - apply no_nl_filter, split_nl_no_nl.
Qed.

Lemma regrouped_all_using content :
  forallb is_using_line (regrouped_usings content) = true.
Proof.
  unfold regrouped_usings, using_lines. destruct (import_missing content).
  - rewrite forallb_app, forallb_filter. reflexivity.
  - apply forallb_filter.
Qed.

Lemma other_all_other content : forallb not_using_line (other_lines content) = true.
Proof. apply forallb_filter. Qed.

Lemma regroup_using_lines content :
  using_lines (regroup_usings content) = regrouped_usings content
  /\ other_lines (regroup_usings content) = other_lines content
  /\ usings_first (split_nl (regroup_usings content)).
Proof.
  unfold using_lines at 1, other_lines at 1. rewrite regroup_lines.
  apply usings_first_intro; [apply regrouped_all_using | apply other_all_other].
Qed.

(** ** Splicing a template *)

Section Insertion.

Variable body : str.
Hypothesis body_lines : forallb not_using_line (split_nl body) = true.

Lemma insert_template_cases content :
  (insert_pos content = None /\ insert_template (NL :: body) content = content)
  \/ (exists a g2 tail,
        closing_site content a g2 tail
        /\ insert_template (NL :: body) content
           = a ++ (NL :: body) ++ NL :: g2 ++ RBRACE :: tail).
Proof.
  unfold insert_template. destruct (insert_pos content) as [p|] eqn:E; auto.
  right. apply insert_pos_sound in E as (a & g2 & tail & Hs & <-).
  exists a, g2, tail. split; auto.
  destruct Hs as (-> & _). rewrite firstn_length_app, skipn_length_app.
  reflexivity.
Qed.

Lemma insert_template_none content :
  insert_pos content = None -> insert_template (NL :: body) content = content.
Proof. unfold insert_template; intros ->; reflexivity. Qed.

Lemma contains_insert_template n content :
  ~ In NL n -> insert_pos content <> None ->
  contains n (insert_template (NL :: body) content)
  = contains n content || contains n body.
Proof.
  intros Hn Hp. destruct (insert_template_cases content)
    as [[E _]|(a & g2 & tail & (-> & _) & ->)]; [contradiction|].
  change (a ++ (NL :: body) ++ NL :: g2 ++ RBRACE :: tail)
    with (a ++ NL :: body ++ NL :: g2 ++ RBRACE :: tail).
  rewrite !contains_app_nl by auto.
  destruct (contains n a), (contains n body), (contains n (g2 ++ RBRACE :: tail));
    reflexivity.
Qed.

Lemma lines_insert_template content :
  insert_pos content <> None -> usings_first (split_nl content) ->
  usings_first (split_nl (insert_template (NL :: body) content))
  /\ using_lines (insert_template (NL :: body) content) = using_lines content.
Proof.
  intros Hp Hf. destruct (insert_template_cases content)
    as [[E _]|(a & g2 & tail & (Hc & Hg & _) & ->)]; [contradiction|].
  unfold using_lines. subst content.
  change (a ++ (NL :: body) ++ NL :: g2 ++ RBRACE :: tail)
    with (a ++ NL :: body ++ NL :: g2 ++ RBRACE :: tail).
  rewrite !split_nl_app in *.
  destruct (brace_line_head g2 tail Hg) as (l & ls & E & Hl).
  rewrite E in *. apply usings_first_insert; auto.
Qed.

Lemma settled_insert content :
  imports_settled content -> has_marker content = true ->
  imports_settled (insert_template (NL :: body) content).
Proof.
  intros Hs Hm.
  destruct (insert_pos content) as [p|] eqn:Ep;
    [|rewrite insert_template_none; auto].
  assert (Hp : insert_pos content <> None) by congruence.
  destruct Hs as [H|[H|[Hf Hi]]].
  - left. rewrite contains_insert_template, H;
      auto using using_common_no_nl.
  - congruence.
  - right; right. destruct (lines_insert_template content Hp Hf) as [Hf' Hu].
    split; auto. unfold import_missing in *. rewrite Hu; auto.
Qed.

End Insertion.

(** ** The two templates *)

Lemma soft_delete_template_eq : SOFT_DELETE_TEMPLATE = NL :: soft_delete_body.
Proof. reflexivity. Qed.

Lemma archivable_template_eq : ARCHIVABLE_TEMPLATE = NL :: archivable_body.
Proof. reflexivity. Qed.

Lemma soft_delete_body_lines :
  forallb not_using_line (split_nl soft_delete_body) = true.
Proof. vm_compute; reflexivity. Qed.

Lemma archivable_body_lines :
  forallb not_using_line (split_nl archivable_body) = true.
Proof. vm_compute; reflexivity. Qed.

Lemma soft_deletable_no_nl : ~ In NL SOFT_DELETABLE.
Proof. apply no_nl_check; reflexivity. Qed.

Lemma archivable_no_nl : ~ In NL ARCHIVABLE.
Proof. apply no_nl_check; reflexivity. Qed.

Lemma soft_delete_signature_no_nl : ~ In NL SOFT_DELETE_SIGNATURE.
Proof. apply no_nl_check; reflexivity. Qed.

Lemma archivable_signature_no_nl : ~ In NL ARCHIVABLE_SIGNATURE.
Proof. apply no_nl_check; reflexivity. Qed.

Lemma soft_delete_body_contains :
  contains SOFT_DELETABLE soft_delete_body = true
  /\ contains SOFT_DELETE_SIGNATURE soft_delete_body = true
  /\ contains ARCHIVABLE soft_delete_body = false
  /\ contains ARCHIVABLE_SIGNATURE soft_delete_body = false
  /\ contains USING_COMMON soft_delete_body = false.
Proof. repeat split; vm_compute; reflexivity. Qed.

Lemma archivable_body_contains :
  contains ARCHIVABLE archivable_body = true
  /\ contains ARCHIVABLE_SIGNATURE archivable_body = true
  /\ contains SOFT_DELETABLE archivable_body = false
  /\ contains SOFT_DELETE_SIGNATURE archivable_body = false
  /\ contains USING_COMMON archivable_body = false.
Proof. repeat split; vm_compute; reflexivity. Qed.

(** ** The two member steps *)

Lemma implement_soft_delete_spec x :
  (implement_soft_delete x = x
   /\ (soft_delete_gap x = false \/ insert_pos x = None))
  \/ (soft_delete_gap x = true /\ insert_pos x <> None
      /\ implement_soft_delete x = insert_template (NL :: soft_delete_body) x
      /\ forall n, ~ In NL n ->
           contains n (implement_soft_delete x)
           = contains n x || contains n soft_delete_body).
Proof.
  unfold implement_soft_delete. rewrite soft_delete_template_eq.
  destruct (soft_delete_gap x) eqn:G; auto.
  destruct (insert_pos x) as [p|] eqn:E.
  - right. repeat split; auto; try discriminate.
    intros n Hn. apply contains_insert_template; congruence.
  - left. split; auto. now apply insert_template_none.
Qed.

Lemma implement_archivable_spec x :
  (implement_archivable x = x
   /\ (archivable_gap x = false \/ insert_pos x = None))
  \/ (archivable_gap x = true /\ insert_pos x <> None
      /\ implement_archivable x = insert_template (NL :: archivable_body) x
      /\ forall n, ~ In NL n ->
           contains n (implement_archivable x)
           = contains n x || contains n archivable_body).
Proof.
  unfold implement_archivable. rewrite archivable_template_eq.
  destruct (archivable_gap x) eqn:G; auto.
  destruct (insert_pos x) as [p|] eqn:E.
  - right. repeat split; auto; try discriminate.
    intros n Hn. apply contains_insert_template; congruence.
  - left. split; auto. now apply insert_template_none.
Qed.

Lemma soft_delete_gap_marker x : soft_delete_gap x = true -> has_marker x = true.
Proof.
  unfold soft_delete_gap, has_marker. intros H.
  apply andb_true_iff in H as [-> _]. reflexivity.
Qed.

Lemma archivable_gap_marker x : archivable_gap x = true -> has_marker x = true.
Proof.
  unfold archivable_gap, has_marker. intros H.
  apply andb_true_iff in H as [-> _]. apply orb_true_r.
Qed.

Lemma soft_delete_done x :
  contains SOFT_DELETE_SIGNATURE x = true -> implement_soft_delete x = x.
Proof.
  intros H. unfold implement_soft_delete, soft_delete_gap.
  rewrite H, andb_false_r. reflexivity.
Qed.

Lemma archivable_done x :
  contains ARCHIVABLE_SIGNATURE x = true -> implement_archivable x = x.
Proof.
  intros H. unfold implement_archivable, archivable_gap.
  rewrite H, andb_false_r. reflexivity.
Qed.

Lemma soft_delete_no_gap x : soft_delete_gap x = false -> implement_soft_delete x = x.
Proof. unfold implement_soft_delete; intros ->; reflexivity. Qed.

Lemma archivable_no_gap x : archivable_gap x = false -> implement_archivable x = x.
Proof. unfold implement_archivable; intros ->; reflexivity. Qed.

Lemma implement_archivable_twice x :
  implement_archivable (implement_archivable x) = implement_archivable x.
Proof.
  destruct (implement_archivable_spec x) as [[E _]|(_ & _ & _ & H)].
  - now rewrite !E.
  - apply archivable_done.
    rewrite H by apply archivable_signature_no_nl.
    destruct archivable_body_contains as (_ & -> & _). apply orb_true_r.
Qed.

Lemma soft_delete_after_archivable x :
  let y := implement_archivable (implement_soft_delete x) in
  implement_soft_delete y = y.
Proof.
  intros y; subst y.
  destruct (implement_soft_delete_spec x) as [[E Hx]|(_ & _ & _ & H)].
  - rewrite E. destruct (implement_archivable_spec x) as [[E' _]|(_ & Hp & _ & H')].
    + now rewrite E'.
    + destruct Hx as [G|Hn]; [|contradiction].
      apply soft_delete_no_gap. unfold soft_delete_gap in *.
      rewrite (H' _ soft_deletable_no_nl), (H' _ soft_delete_signature_no_nl).
      destruct archivable_body_contains as (_ & _ & -> & -> & _).
      now rewrite !orb_false_r.
  - apply soft_delete_done.
    assert (S1 : contains SOFT_DELETE_SIGNATURE (implement_soft_delete x) = true).
    { rewrite H by apply soft_delete_signature_no_nl.
      destruct soft_delete_body_contains as (_ & -> & _). apply orb_true_r. }
    destruct (implement_archivable_spec (implement_soft_delete x))
      as [[E' _]|(_ & _ & _ & H')].
    + now rewrite E'.
    + rewrite H' by apply soft_delete_signature_no_nl. now rewrite S1.
Qed.

(** ** The import step *)

Lemma settled_normalize x : imports_settled x -> normalize_imports x = x.
Proof.
  unfold normalize_imports, needs_using. fold (has_marker x).
  intros [H|[H|[Hf Hi]]].
  - rewrite H, andb_false_r. reflexivity.
  - rewrite H. reflexivity.
  - destruct (has_marker x && negb (contains USING_COMMON x)); auto.
    rewrite regroup_usings_eq. unfold regrouped_usings. rewrite Hi.
    unfold using_lines, other_lines. rewrite Hf. apply join_split.
Qed.

Lemma contains_line n x l :
  ~ In NL n -> In l (split_nl x) -> contains n l = true -> contains n x = true.
Proof.
  intros Hn Hl H. rewrite contains_lines by auto.
  apply existsb_exists. eauto.
Qed.

Lemma normalize_settled t : imports_settled (normalize_imports t).
Proof.
  unfold normalize_imports, needs_using. fold (has_marker t).
  destruct (has_marker t) eqn:Hm; simpl; [|right; left; auto].
  destruct (contains USING_COMMON t) eqn:Hu; simpl; [left; auto|].
  destruct (import_missing t) eqn:Hi.
  - left. apply (contains_line USING_COMMON _ USING_COMMON).
    + apply using_common_no_nl.
    + rewrite regroup_lines. unfold regrouped_usings. rewrite Hi.
      rewrite !in_app_iff. left; right; left; reflexivity.
    + reflexivity.
  - right; right. destruct (regroup_using_lines t) as (Eu & _ & Hf).
    split; auto. unfold import_missing in *. rewrite Eu.
    unfold regrouped_usings, import_missing. rewrite Hi. exact Hi.
Qed.

Lemma settled_soft_delete x :
  imports_settled x -> imports_settled (implement_soft_delete x).
Proof.
  intros Hs. destruct (implement_soft_delete_spec x) as [[-> _]|(G & _ & -> & _)]; auto.
  apply settled_insert; auto using soft_delete_body_lines, soft_delete_gap_marker.
Qed.

Lemma settled_archivable x :
  imports_settled x -> imports_settled (implement_archivable x).
Proof.
  intros Hs. destruct (implement_archivable_spec x) as [[-> _]|(G & _ & -> & _)]; auto.
  apply settled_insert; auto using archivable_body_lines, archivable_gap_marker.
Qed.

Lemma lines_soft_delete x :
  usings_first (split_nl x) ->
  usings_first (split_nl (implement_soft_delete x))
  /\ using_lines (implement_soft_delete x) = using_lines x.
Proof.
  intros Hf. destruct (implement_soft_delete_spec x) as [[-> _]|(_ & Hp & -> & _)]; auto.
  apply lines_insert_template; auto using soft_delete_body_lines.
Qed.

Lemma lines_archivable x :
  usings_first (split_nl x) ->
  usings_first (split_nl (implement_archivable x))
  /\ using_lines (implement_archivable x) = using_lines x.
Proof.
  intros Hf. destruct (implement_archivable_spec x) as [[-> _]|(_ & Hp & -> & _)]; auto.
  apply lines_insert_template; auto using archivable_body_lines.
Qed.

Lemma needs_using_iff t :
  needs_using t = true <-> has_marker t = true /\ contains USING_COMMON t = false.
Proof.
  unfold needs_using. fold (has_marker t).
  rewrite andb_true_iff, negb_true_iff. tauto.
Qed.

Lemma normalize_regroup t :
  needs_using t = true -> normalize_imports t = regroup_usings t.
Proof. unfold normalize_imports; intros ->; reflexivity. Qed.

Lemma partition_permutation (f : str -> bool) ls :
  Permutation (filter f ls ++ filter (fun l => negb (f l)) ls) ls.
Proof.
  induction ls as [|l ls IH]; simpl; auto.
  destruct (f l); simpl.
  - now constructor.
  - apply Permutation_sym, Permutation_cons_app, Permutation_sym, IH.
Qed.

(** ** A match survives the regrouping of the import lines *)

Lemma insert_pos_found content :
  insert_pos content = None <-> re_search pattern content = None.
Proof.
  split.
  - intros H. destruct (re_search pattern content) as [m|] eqn:E; auto.
    exfalso. unfold re_search in E.
    apply search_from_sound in E as (pre & rest1 & -> & E & _).
    unfold match_at, pattern in E.
    apply rmatch_group1 in E as (g1 & w & rest' & caps' & -> & Hg1 & L & Hs & E);
      [|simpl; intuition discriminate].
    apply lang_brace_line in L as (g2 & w3 & -> & Hg2 & L).
    refine (insert_pos_complete _ (pre ++ g1) g2 (w3 ++ rest') _ H).
    split; [|split; eauto].
    rewrite <- !app_assoc. simpl. now rewrite <- app_assoc.
  - unfold insert_pos. intros ->. reflexivity.
Qed.

Lemma lang_gap_then r w rest :
  lang (gap_then r) w rest <->
  exists s1 s2 x, w = s1 ++ NL :: s2 ++ x
                  /\ forallb isspace s1 = true /\ forallb isspace s2 = true
                  /\ lang r x rest.
Proof.
  unfold gap_then; split.
  - intros H.
    apply lang_seq_inv in H as (s1 & w' & -> & H1 & H).
    apply lang_seq_inv in H as (n & w'' & -> & H2 & H).
    apply lang_seq_inv in H as (s2 & x & -> & H3 & H).
    apply lang_lit_inv in H2; subst n.
    apply lang_spaces_inv in H1, H3.
    exists s1, s2, x; auto.
  - intros (s1 & s2 & x & -> & H1 & H2 & H).
    apply lang_seq; [now constructor|].
    apply (lang_seq (RLit [NL]) _ [NL]); [constructor|].
    apply lang_seq; [now constructor | auto].
Qed.

Lemma lang_after_brace w rest :
  lang after_brace w rest <->
  exists s1 s2 x, w = s1 ++ NL :: s2 ++ x
                  /\ forallb isspace s1 = true /\ forallb isspace s2 = true
                  /\ (x = utf8 "/// <summary>" \/ x = utf8 "public enum"
                      \/ (x = [] /\ at_end rest = true)).
Proof.
  unfold after_brace; split.
  - intros H. apply lang_group_inv in H.
    apply lang_alt_inv in H as [H|H]; [|apply lang_alt_inv in H as [H|H]];
      apply lang_gap_then in H as (s1 & s2 & x & -> & H1 & H2 & H);
      exists s1, s2, x; repeat split; auto.
    + left. now apply lang_lit_inv in H.
    + right; left. now apply lang_lit_inv in H.
    + right; right. now apply lang_end_inv in H.
  - intros (s1 & s2 & x & -> & H1 & H2 & [->|[->|[-> He]]]); constructor.
    + apply lang_alt_l, lang_gap_then. exists s1, s2, (utf8 "/// <summary>").
      repeat split; auto. constructor.
    + apply lang_alt_r, lang_alt_l, lang_gap_then.
      exists s1, s2, (utf8 "public enum"). repeat split; auto. constructor.
    + apply lang_alt_r, lang_alt_r, lang_gap_then. exists s1, s2, [].
      repeat split; auto. now constructor.
Qed.

Lemma lines_space_cons c s :
  isspace c = true -> forallb not_using_line (split_nl s) = true ->
  forallb not_using_line (split_nl (c :: s)) = true.
Proof.
  intros Hc H. destruct (N.eq_dec c NL) as [->|Hn].
  - simpl. exact H.
  - destruct (split_nl_cons c s Hn) as (l & ls & E & ->). rewrite E in H.
    simpl in *. unfold not_using_line at 1. rewrite is_using_line_space; auto.
Qed.

Lemma lines_spaces_app g s :
  forallb isspace g = true -> forallb not_using_line (split_nl s) = true ->
  forallb not_using_line (split_nl (g ++ s)) = true.
Proof.
  induction g as [|c g IH]; simpl app; auto. intros H Hs.
  simpl in H. apply andb_true_iff in H as [Hc H].
  apply lines_space_cons; auto.
Qed.

Lemma lines_spaces s :
  forallb isspace s = true -> forallb not_using_line (split_nl s) = true.
Proof.
  intros H. rewrite <- (app_nil_r s). apply lines_spaces_app; auto.
Qed.

Lemma lines_brace g s :
  forallb isspace g = true -> forallb not_using_line (split_nl s) = true ->
  forallb not_using_line (split_nl (g ++ RBRACE :: s)) = true.
Proof.
  intros Hg Hs. apply lines_spaces_app; auto.
  destruct (split_nl_cons RBRACE s) as (l & ls & E & ->); [discriminate|].
  rewrite E in Hs. simpl in *. apply andb_true_iff in Hs as [_ ->].
  unfold not_using_line.
  change (RBRACE :: l) with ([] ++ RBRACE :: l).
  rewrite not_using_brace; reflexivity.
Qed.

Lemma not_using_first c l :
  isspace c = false -> c <> 117%N -> is_using_line (c :: l) = false.
Proof.
  intros Hc Hu. unfold is_using_line, strip. simpl lstrip. rewrite Hc.
  rewrite rstrip_cons by auto.
  change (startswith USING_PREFIX (c :: rstrip l))
    with ((117 =? c)%N && startswith (utf8 "sing ") (rstrip l)).
  apply N.eqb_neq in Hu. rewrite N.eqb_sym, Hu. reflexivity.
Qed.

Lemma break_line (s : str) :
  exists r1 s', s = r1 ++ s' /\ ~ In NL r1
                /\ (s' = [] \/ exists s'', s' = NL :: s'').
Proof.
  induction s as [|c s (r1 & s' & -> & Hr & Hs)].
  - exists [], []. simpl; auto.
  - destruct (N.eq_dec c NL) as [->|Hn].
    + exists [], (NL :: r1 ++ s'). simpl.
      split; [reflexivity|]. split; [tauto|]. right; eauto.
    + exists (c :: r1), s'. simpl.
      split; [reflexivity|]. split; [|exact Hs]. intros [E|E]; auto.
Qed.

Lemma join_nl_app l1 l2 :
  l1 <> [] -> l2 <> [] -> join_nl (l1 ++ l2) = join_nl l1 ++ NL :: join_nl l2.
Proof.
  intros H1 H2. induction l1 as [|l l1 IH]; [contradiction|].
  destruct l1 as [|l' l1].
  - simpl app. now rewrite join_nl_cons.
  - change ((l :: l' :: l1) ++ l2) with (l :: ((l' :: l1) ++ l2)).
    rewrite join_nl_cons by discriminate.
    rewrite IH by discriminate.
    rewrite (join_nl_cons l) by discriminate.
    rewrite <- app_assoc. reflexivity.
Qed.

Lemma regrouped_usings_nonempty t : regrouped_usings t <> [].
Proof.
  unfold regrouped_usings. destruct (import_missing t) eqn:E.
  - destruct (using_lines t); discriminate.
  - unfold import_missing in E. destruct (using_lines t); [discriminate|].
    discriminate.
Qed.

(** A block of lines without import lines, entered after a newline, is
    found again after a newline in the regrouped text, followed by the
    end of the text if it was, and by the end or a newline otherwise. *)
Lemma regroup_block a block s :
  forallb not_using_line (split_nl block) = true ->
  s = [] \/ (exists s', s = NL :: s') ->
  exists a' s2,
    regroup_usings (a ++ NL :: block ++ s) = a' ++ NL :: block ++ s2
    /\ (s = [] -> s2 = [])
    /\ (s2 = [] \/ exists s3, s2 = NL :: s3).
Proof.
  intros Hb Hs.
  set (t := a ++ NL :: block ++ s).
  assert (E : exists ls, split_nl t = split_nl a ++ split_nl block ++ ls
                         /\ (s = [] -> ls = [])).
  { unfold t. destruct Hs as [->|(s' & ->)].
    - exists []. rewrite !app_nil_r, split_nl_app. auto.
    - exists (split_nl s'). rewrite !split_nl_app. split; auto. discriminate. }
  destruct E as (ls & E & Els).
  rewrite regroup_usings_eq. unfold other_lines. rewrite E, !filter_app.
  rewrite (filter_all _ _ Hb).
  set (oa := filter not_using_line (split_nl a)).
  set (os := filter not_using_line ls).
  rewrite app_assoc.
  assert (Hne : regrouped_usings t ++ oa <> []).
  { pose proof (regrouped_usings_nonempty t).
    destruct (regrouped_usings t); [contradiction | discriminate]. }
  exists (join_nl (regrouped_usings t ++ oa)).
  destruct os as [|o os'] eqn:Eos.
  - exists []. rewrite !app_nil_r.
    rewrite join_nl_app, join_split; auto using split_nl_nonempty.
  - exists (NL :: join_nl (o :: os')).
    rewrite join_nl_app; [|exact Hne|].
    + rewrite (join_nl_app (split_nl block) (o :: os'));
        [|apply split_nl_nonempty|discriminate].
      rewrite join_split.
      split; [reflexivity|]. split; [|eauto].
      intros Hs'. apply Els in Hs'. unfold os in Eos. rewrite Hs' in Eos.
      discriminate.
    + intros H. apply app_eq_nil in H as [H _].
      exact (split_nl_nonempty _ H).
Qed.

Lemma insert_pos_regroup t :
  insert_pos t <> None -> insert_pos (regroup_usings t) <> None.
Proof.
  intros H. destruct (insert_pos t) as [p|] eqn:E; [clear H | contradiction].
  apply insert_pos_sound in E as (a & g2 & tail & (-> & Hg & w3 & rest & -> & L) & _).
  apply lang_after_brace in L as (s1 & s2 & x & -> & H1 & H2 & Hx).
  assert (Hlit : forall c x', isspace c = false -> c <> 117%N ->
            ~ In NL (c :: x') -> x = c :: x' ->
            insert_pos (regroup_usings
              (a ++ NL :: g2 ++ RBRACE :: (s1 ++ NL :: s2 ++ x) ++ rest)) <> None).
  { intros c x' Hc Hu Hnl ->.
    destruct (break_line rest) as (r1 & s' & -> & Hr & Hs').
    destruct (regroup_block a (g2 ++ RBRACE :: s1 ++ NL :: s2 ++ (c :: x') ++ r1) s')
      as (a' & s3 & E & _ & _); auto.
    - replace (g2 ++ RBRACE :: s1 ++ NL :: s2 ++ (c :: x') ++ r1)
        with ((g2 ++ RBRACE :: s1) ++ NL :: (s2 ++ (c :: x') ++ r1))
        by (rewrite <- app_assoc; reflexivity).
      rewrite split_nl_app, forallb_app. apply andb_true_iff; split.
      + apply lines_brace; auto. now apply lines_spaces.
      + apply lines_spaces_app; auto.
        rewrite split_nl_line.
        * simpl. unfold not_using_line. now rewrite not_using_first.
        * intros Hin. apply in_app_iff in Hin as [Hin|Hin]; auto.
    - replace (a ++ NL :: g2 ++ RBRACE :: (s1 ++ NL :: s2 ++ c :: x') ++ r1 ++ s')
        with (a ++ NL :: (g2 ++ RBRACE :: s1 ++ NL :: s2 ++ (c :: x') ++ r1) ++ s').
      2:{ repeat (rewrite <- ?app_assoc; simpl). reflexivity. }
      rewrite E.
      apply (insert_pos_complete _ a' g2 (s1 ++ NL :: s2 ++ (c :: x') ++ r1 ++ s3)).
      split; [|split; auto].
      + repeat (rewrite <- ?app_assoc; simpl). reflexivity.
      + exists (s1 ++ NL :: s2 ++ c :: x'), (r1 ++ s3). split.
        * repeat (rewrite <- ?app_assoc; simpl). reflexivity.
        * apply lang_after_brace. exists s1, s2, (c :: x'). repeat split; auto.
          destruct Hx as [Hx|[Hx|[Hx _]]]; auto. discriminate. }
  destruct Hx as [Hx|[Hx|[-> He]]].
  - apply (Hlit 47%N (tl (utf8 "/// <summary>"))); auto; try discriminate.
    apply no_nl_check; reflexivity.
  - apply (Hlit 112%N (tl (utf8 "public enum"))); auto; try discriminate.
    apply no_nl_check; reflexivity.
  - clear Hlit. rewrite app_nil_r.
    assert (Hr : forallb isspace rest = true).
    { destruct rest as [|c [|c' r]]; try discriminate; auto.
      simpl in He. apply N.eqb_eq in He. subst c. reflexivity. }
    destruct (regroup_block a (g2 ++ RBRACE :: (s1 ++ NL :: s2) ++ rest) [])
      as (a' & s3 & E & Hs3 & _); auto.
    + apply lines_brace; auto. apply lines_spaces.
      rewrite !forallb_app. simpl. now rewrite H1, H2, Hr.
    + rewrite app_nil_r in E. rewrite E, (Hs3 eq_refl), app_nil_r.
      apply (insert_pos_complete _ a' g2 ((s1 ++ NL :: s2) ++ rest)).
      split; [reflexivity|]. split; auto.
      exists (s1 ++ NL :: s2), rest. split; auto.
      apply lang_after_brace. exists s1, s2, []. rewrite app_nil_r.
      repeat split; auto.
Qed.

Lemma existsb_partition (f g : str -> bool) ls :
  existsb f (filter g ls) || existsb f (filter (fun l => negb (g l)) ls)
  = existsb f ls.
Proof.
  induction ls as [|l ls IH]; simpl; auto.
  destruct (g l); simpl; rewrite <- IH.
  - now rewrite orb_assoc.
  - rewrite !orb_assoc. f_equal. apply orb_comm.
Qed.

(** What the regrouped text contains: what the text contained, and the
    import when it was appended. *)
Lemma contains_regroup n t :
  ~ In NL n ->
  contains n (regroup_usings t)
  = contains n t || (import_missing t && contains n USING_COMMON).
Proof.
  intros Hn. rewrite (contains_lines n (regroup_usings t)), regroup_lines by auto.
  rewrite (contains_lines n t) by auto.
  rewrite <- (existsb_partition (contains n) is_using_line (split_nl t)).
  unfold regrouped_usings, using_lines, other_lines, not_using_line.
  destruct (import_missing t); rewrite !existsb_app.
  - change (existsb (contains n) [USING_COMMON])
      with (contains n USING_COMMON || false).
    generalize (contains n USING_COMMON); intros u.
    destruct (existsb _ (filter is_using_line _)), u, (existsb _ (filter _ _));
      reflexivity.
  - now rewrite orb_false_r.
Qed.

(** ** The leftmost match *)

Lemma match_at_sound b pos m :
  match_at pattern b pos = Some m ->
  exists g1 g2 w3 rest,
    b = g1 ++ NL :: g2 ++ RBRACE :: w3 ++ rest
    /\ forallb isspace g1 = true /\ forallb isspace g2 = true
    /\ lang after_brace w3 rest
    /\ m_start m = pos
    /\ span 1 (m_groups m) = Some (pos, pos + length g1).
Proof.
  unfold match_at, pattern. intros E.
  apply rmatch_group1 in E as (g1 & w & rest & caps' & -> & Hg1 & L & Hs & E);
    [|simpl; intuition discriminate].
  injection E as <-.
  apply lang_brace_line in L as (g2 & w3 & -> & Hg2 & L).
  exists g1, g2, w3, rest. simpl. repeat split; auto.
  rewrite <- app_assoc. reflexivity.
Qed.

Lemma match_at_complete g1 g2 w3 rest pos :
  forallb isspace g1 = true -> forallb isspace g2 = true ->
  lang after_brace w3 rest ->
  match_at pattern (g1 ++ NL :: g2 ++ RBRACE :: w3 ++ rest) pos <> None.
Proof.
  intros H1 H2 L. unfold match_at, pattern.
  replace (g1 ++ NL :: g2 ++ RBRACE :: w3 ++ rest)
    with ((g1 ++ NL :: g2 ++ RBRACE :: w3) ++ rest)
    by (rewrite <- app_assoc; simpl; rewrite <- app_assoc; reflexivity).
  apply rmatch_complete; [|discriminate].
  apply lang_seq; [constructor; now constructor|].
  apply lang_brace_line; eauto.
Qed.

Lemma search_from_first r pre : forall rest1 pos m,
  (forall a b, pre ++ rest1 = a ++ b -> length a < length pre ->
               match_at r b (pos + length a) = None) ->
  match_at r rest1 (pos + length pre) = Some m ->
  search_from r (pre ++ rest1) pos = Some m.
Proof.
  induction pre as [|c pre IH]; intros rest1 pos m Hnone Hm.
  - simpl in *. rewrite Nat.add_0_r in Hm.
    destruct rest1; simpl; now rewrite Hm.
  - assert (H0 : match_at r (c :: pre ++ rest1) pos = None).
    { pose proof (Hnone [] (c :: pre ++ rest1) eq_refl) as H.
      simpl in H. rewrite Nat.add_0_r in H. apply H. lia. }
    simpl. rewrite H0.
    apply IH.
    + intros a b Hab Hlen.
      pose proof (Hnone (c :: a) b) as H. simpl in H.
      rewrite Nat.add_succ_r in H. apply H; [now rewrite Hab | lia].
    + simpl in Hm. now rewrite Nat.add_succ_r in Hm.
Qed.

Lemma insert_pos_leftmost content p :
  insert_pos content = Some p ->
  exists pre g1 g2 tail,
    content = pre ++ g1 ++ NL :: g2 ++ RBRACE :: tail
    /\ forallb isspace g1 = true /\ forallb isspace g2 = true
    /\ p = length pre + length g1
    /\ forall a b, content = a ++ b -> length a < length pre ->
                   match_at pattern b (length a) = None.
Proof.
  unfold insert_pos, re_search.
  destruct (search_from pattern content 0) as [m|] eqn:E; [|discriminate].
  apply search_from_sound in E as (pre & rest1 & -> & E & Hleft).
  simpl in E.
  apply match_at_sound in E as (g1 & g2 & w3 & rest & -> & H1 & H2 & L & Hs & Hg).
  unfold group. rewrite Hg. intros H; injection H as <-.
  exists pre, g1, g2, (w3 ++ rest). repeat split; auto.
  rewrite skipn_length_app.
  replace (length pre + length g1 - length pre) with (length g1) by lia.
  now rewrite firstn_length_app, Hs.
Qed.

(** ** The second search, after the soft-delete template went in *)

Lemma app_eq_app_le {A} (l1 l2 a b : list A) :
  l1 ++ l2 = a ++ b -> length l1 <= length a ->
  exists l, a = l1 ++ l /\ l2 = l ++ b.
Proof.
  revert a; induction l1 as [|x l1 IH]; intros a H Hl; simpl in *.
  - exists a; auto.
  - destruct a as [|y a]; simpl in *; [lia|].
    injection H as -> H. destruct (IH a H) as (l & -> & ->); [lia|].
    exists l; auto.
Qed.

Lemma at_end_short rest : at_end rest = true -> length rest <= 1.
Proof. destruct rest as [|c [|c' r]]; simpl; auto; discriminate. Qed.

Lemma no_match_before T8 pre g1 R a1 a2 pos :
  forallb isspace g1 = true ->
  (forall a b, pre ++ g1 ++ R = a ++ b -> length a < length pre ->
               match_at pattern b (length a) = None) ->
  pre ++ g1 = a1 ++ a2 ->
  match_at pattern
    (a2 ++ (NL :: 32 :: 32 :: 32 :: 32 :: 47 :: 47 :: 32 :: T8)%N ++ R) pos = None.
Proof.
  intros Hg1 Hleft Ha.
  destruct (match_at pattern _ pos) as [m|] eqn:E; auto. exfalso.
  apply match_at_sound in E as (g1' & g2' & w3 & rest & E & H1 & H2 & L & _ & _).
  apply lang_after_brace in L as (s1 & s2 & x & -> & Hs1 & Hs2 & Hx).
  assert (HW : forallb isspace (g1' ++ NL :: g2') = true).
  { rewrite forallb_app. simpl. now rewrite H1, H2. }
  assert (Hu : forallb isspace (s1 ++ NL :: s2) = true).
  { rewrite forallb_app. simpl. now rewrite Hs1, Hs2. }
  replace (g1' ++ NL :: g2' ++ RBRACE :: (s1 ++ NL :: s2 ++ x) ++ rest)
    with ((g1' ++ NL :: g2') ++ RBRACE :: (s1 ++ NL :: s2) ++ x ++ rest) in E
    by (repeat (rewrite <- ?app_assoc; simpl); reflexivity).
  remember (g1' ++ NL :: g2') as W eqn:EW.
  remember (s1 ++ NL :: s2) as u eqn:Eu.
  apply app_eq_app in E as (l & [[E1 E2]|[E1 E2]]).
  - (* a2 = W ++ l : the brace stands in front of the template *)
    destruct l as [|c l]; simpl in E2; [discriminate|].
    injection E2 as <- E2.
    assert (Hgood : exists l3, l = u ++ x ++ l3).
    { apply app_eq_app in E2 as (l2 & [[E3 E4]|[E3 E4]]).
      - (* the gap reaches into the template *)
        exfalso. subst u. rewrite E3, forallb_app in Hu.
        apply andb_true_iff in Hu as [_ Hl2].
        destruct l2 as [|c0 [|c1 [|c2 [|c3 [|c4 [|c5 l2]]]]]];
          simpl in E4;
          try (inversion E4; subst; simpl in Hl2; discriminate);
          destruct Hx as [->|[->|[-> He]]];
          simpl in E4; try discriminate;
          inversion E4; subst; simpl in He; discriminate.
      - (* the gap ends in front of the template *)
        destruct Hx as [Hx|[Hx|[-> He]]].
        3:{ apply at_end_short in He. simpl in E4. subst rest.
            rewrite length_app in He. simpl in He. lia. }
        all: apply app_eq_app in E4 as (l3 & [[E5 E6]|[E5 E6]]);
          [|exists l3; subst; now rewrite <- app_assoc].
        all: destruct l3 as [|c3 l3];
          [exists []; rewrite app_nil_r in *; subst; reflexivity|].
        all: simpl in E6; injection E6 as <- _;
          rewrite Hx in E5;
          apply (f_equal (fun s => existsb (N.eqb NL) s)) in E5;
          rewrite existsb_app in E5; simpl in E5;
          rewrite orb_true_r in E5; discriminate. }
    destruct Hgood as (l3 & ->).
    destruct (Nat.lt_ge_cases (length a1) (length pre)) as [Hlt|Hge].
    + apply (match_at_complete g1' g2' (s1 ++ NL :: s2 ++ x) (l3 ++ R) (length a1));
        auto.
      * apply lang_after_brace. exists s1, s2, x. repeat split; auto.
        destruct Hx as [Hx|[Hx|[-> He]]]; auto.
        exfalso. apply at_end_short in He.
        apply (f_equal (@length char)) in E2.
        rewrite !length_app in E2. simpl in E2. lia.
      * rewrite <- (Hleft a1 (a2 ++ R)); auto.
        -- f_equal. subst a2 W u.
           repeat (rewrite <- ?app_assoc; simpl). reflexivity.
        -- rewrite !app_assoc. now rewrite <- Ha, <- !app_assoc.
    + apply app_eq_app_le in Ha as (l4 & _ & Eg); auto.
      subst g1 a2. rewrite !forallb_app in Hg1. simpl in Hg1.
      rewrite !andb_false_r in Hg1. discriminate.
  - (* W = a2 ++ l : the white space reaches into the template *)
    subst W. rewrite E1, forallb_app in HW. apply andb_true_iff in HW as [_ Hl].
    destruct l as [|c0 [|c1 [|c2 [|c3 [|c4 [|c5 l]]]]]]; simpl in E2;
      try discriminate.
    inversion E2; subst. simpl in Hl. discriminate.
Qed.

Lemma soft_delete_template_head :
  SOFT_DELETE_TEMPLATE
  = (NL :: 32 :: 32 :: 32 :: 32 :: 47 :: 47 :: 32 :: skipn 8 SOFT_DELETE_TEMPLATE)%N.
Proof. reflexivity. Qed.

Lemma no_match_in_template X pos :
  forallb (fun j => match match_at pattern (skipn j SOFT_DELETE_TEMPLATE ++ X)
                                   (pos + j) with
                     | None => true
                     | Some _ => false
                     end) (seq 0 917) = true.
Proof. vm_compute. reflexivity. Qed.

Lemma match_at_template_brace X pos :
  exists m, match_at pattern (skipn 917 SOFT_DELETE_TEMPLATE ++ X) pos = Some m
            /\ m_start m = pos /\ span 1 (m_groups m) = Some (pos, pos).
Proof.
  eexists. split; [vm_compute; reflexivity|]. split; reflexivity.
Qed.

Lemma archivable_site c p :
  insert_pos c = Some p ->
  insert_pos (firstn p c ++ SOFT_DELETE_TEMPLATE ++ skipn p c) = Some (p + 917).
Proof.
  intros H.
  apply insert_pos_leftmost in H as (pre & g1 & g2 & tail & -> & Hg1 & Hg2 & -> & Hleft).
  set (R := NL :: g2 ++ RBRACE :: tail) in *.
  rewrite <- length_app. rewrite (app_assoc pre g1 R).
  rewrite firstn_length_app, skipn_length_app.
  set (a := pre ++ g1) in *.
  destruct (match_at_template_brace R (0 + length (a ++ firstn 917 SOFT_DELETE_TEMPLATE)))
    as (m & Hm & Hstart & Hspan).
  assert (Hlen : length (a ++ firstn 917 SOFT_DELETE_TEMPLATE) = length a + 917).
  { rewrite length_app. f_equal. }
  unfold insert_pos, re_search.
  replace (a ++ SOFT_DELETE_TEMPLATE ++ R)
    with ((a ++ firstn 917 SOFT_DELETE_TEMPLATE)
          ++ (skipn 917 SOFT_DELETE_TEMPLATE ++ R)).
  2:{ rewrite <- app_assoc, (app_assoc (firstn 917 SOFT_DELETE_TEMPLATE)).
      now rewrite firstn_skipn. }
  rewrite (search_from_first pattern _ _ 0 m); auto.
  - unfold group. rewrite Hspan, Hstart, Nat.sub_diag, firstn_O, Hlen.
    cbn [length]. f_equal. lia.
  - intros a' b Hab Hl. rewrite Hlen in Hl. simpl.
    destruct (Nat.lt_ge_cases (length a') (length a)) as [Hlt|Hge].
    + symmetry in Hab. rewrite <- app_assoc in Hab.
      apply app_eq_app_le in Hab as (l & Ea & Eb); [|lia].
      rewrite (app_assoc (firstn 917 SOFT_DELETE_TEMPLATE)), firstn_skipn in Eb.
      subst b.
      pose proof (no_match_before (skipn 8 SOFT_DELETE_TEMPLATE)
                    pre g1 R a' l (length a') Hg1) as Hn.
      rewrite <- soft_delete_template_head in Hn. apply Hn; auto.
    + rewrite <- app_assoc in Hab.
      apply app_eq_app_le in Hab as (l & -> & Eb); [|lia].
      rewrite (app_assoc (firstn 917 SOFT_DELETE_TEMPLATE)), firstn_skipn in Eb.
      rewrite length_app in *.
      assert (Hj : length l < 917) by lia.
      assert (Eb' : b = skipn (length l) SOFT_DELETE_TEMPLATE ++ R).
      { rewrite <- (skipn_length_app l b), <- Eb, skipn_app.
        replace (length l - length SOFT_DELETE_TEMPLATE) with 0; [reflexivity|].
        replace (length SOFT_DELETE_TEMPLATE) with 1168 by reflexivity. lia. }
      rewrite Eb'.
      pose proof (no_match_in_template R (length a)) as Hf.
      rewrite forallb_forall in Hf.
      assert (Hin : In (length l) (seq 0 917)) by (apply in_seq; lia).
      specialize (Hf _ Hin). cbv beta in Hf.
      revert Hf.
      destruct (match_at pattern (skipn (length l) SOFT_DELETE_TEMPLATE ++ R)
                         (length a + length l));
        [discriminate | reflexivity].
Qed.

Lemma contains_normalize n t :
  ~ In NL n -> contains n USING_COMMON = false ->
  contains n (normalize_imports t) = contains n t.
Proof.
  intros Hn Hu. unfold normalize_imports. destruct (needs_using t); auto.
  rewrite contains_regroup, Hu by auto. now rewrite andb_false_r, orb_false_r.
Qed.

Lemma insert_pos_normalize t :
  insert_pos t <> None -> insert_pos (normalize_imports t) <> None.
Proof.
  unfold normalize_imports. destruct (needs_using t); auto.
  apply insert_pos_regroup.
Qed.

Lemma insert_pos_bound content p : insert_pos content = Some p -> p <= length content.
Proof.
  intros H. apply insert_pos_sound in H as (a & g2 & tail & (-> & _) & <-).
  rewrite length_app. lia.
Qed.

Lemma both_templates_output c0 p :
  soft_delete_gap c0 = true -> archivable_gap c0 = true ->
  insert_pos c0 = Some p ->
  implement_archivable (implement_soft_delete c0)
  = firstn p c0 ++ firstn 917 SOFT_DELETE_TEMPLATE ++ ARCHIVABLE_TEMPLATE
    ++ skipn 917 SOFT_DELETE_TEMPLATE ++ skipn p c0.
Proof.
  intros Gs Ga Hp.
  assert (E1 : implement_soft_delete c0
               = firstn p c0 ++ SOFT_DELETE_TEMPLATE ++ skipn p c0).
  { unfold implement_soft_delete, insert_template. now rewrite Gs, Hp. }
  assert (Ga1 : archivable_gap (implement_soft_delete c0) = true).
  { destruct (implement_soft_delete_spec c0) as [[_ [G|G]]|(_ & _ & _ & H)];
      try congruence.
    unfold archivable_gap in *.
    rewrite (H _ archivable_no_nl), (H _ archivable_signature_no_nl).
    destruct soft_delete_body_contains as (_ & _ & -> & -> & _).
    now rewrite !orb_false_r. }
  unfold implement_archivable. rewrite Ga1. unfold insert_template.
  rewrite E1, (archivable_site c0 p Hp).
  pose proof (insert_pos_bound _ _ Hp) as Hb.
  assert (HA : length (firstn p c0) = p) by (apply firstn_length_le; lia).
  set (A := firstn p c0) in *. set (B := skipn p c0).
  assert (HT : length SOFT_DELETE_TEMPLATE = 1168) by reflexivity.
  rewrite firstn_app, skipn_app, HA.
  rewrite firstn_all2, skipn_all2 by lia.
  replace (p + 917 - p) with 917 by lia.
  rewrite firstn_app, skipn_app, HT.
  change (917 - 1168) with 0. rewrite firstn_O.
  change (skipn 0 B) with B.
  rewrite app_nil_r. cbn [app]. rewrite <- !app_assoc. reflexivity.
Qed.

(** ** One file *)

Lemma no_marker_transform t : has_marker t = false -> transform t = t.
Proof.
  intros H. unfold transform, normalize_imports, needs_using.
  fold (has_marker t). rewrite H. simpl.
  unfold has_marker in H. apply orb_false_iff in H as [H1 H2].
  rewrite soft_delete_no_gap, archivable_no_gap; auto.
  - unfold archivable_gap. now rewrite H2.
  - unfold soft_delete_gap. now rewrite H1.
Qed.

Lemma transform_again t : transform (transform t) = transform t.
Proof.
  unfold transform at 1.
  rewrite settled_normalize.
  - unfold transform. rewrite soft_delete_after_archivable.
    apply implement_archivable_twice.
  - apply settled_archivable, settled_soft_delete, normalize_settled.
Qed.

Lemma existsb_str_eqb q l : existsb (str_eqb q) l = true <-> In q l.
Proof.
  rewrite existsb_exists. split.
  - intros (x & Hx & E). apply str_eqb_eq in E. now subst.
  - intros H. exists q. split; auto. apply str_eqb_refl.
Qed.

Lemma process_entity_file_eq file_path w content :
  files w file_path = Some content ->
  process_entity_file file_path w
  = if negb (str_eqb (transform content) content)
    then match write_fate w file_path (transform content) with
         | Written =>
           Returned true (print (utf8 "Processado: " ++ file_path)
                                (write_file file_path (transform content) w))
         | Refused => Raised w
         | Torn kept => Raised (tear_file file_path kept w)
         end
    else Returned false w.
Proof. unfold process_entity_file, transform. intros ->. reflexivity. Qed.

(** ** The driver: one file at a time *)





Lemma process_entity_file_report p w b w' :
  process_entity_file p w = Returned b w' ->
  exists c,
    files w p = Some c
    /\ b = negb (str_eqb (transform c) c)
    /\ path_exists w' = path_exists w /\ os_walk w' = os_walk w
    /\ write_fate w' = write_fate w
    /\ (forall q, files w' q = if str_eqb q p then Some (transform c) else files w q)
    /\ writes w' = writes w ++ (if b then [(p, transform c)] else [])
    /\ stdout w' = stdout w ++ (if b then [report_line (p, transform c)] else []).
Proof.
  intros H. destruct (files w p) as [c|] eqn:Hf.
  - rewrite (process_entity_file_eq _ _ _ Hf) in H. exists c.
    destruct (str_eqb (transform c) c) eqn:E; cbn [negb] in H.
    + injection H as <- <-.
      split; auto. split; auto. split; auto. split; auto. split; auto.
      split; [|now rewrite !app_nil_r].
      intros q. destruct (str_eqb q p) eqn:Eq; auto.
      apply str_eqb_eq in Eq, E. subst q. congruence.
    + destruct (write_fate w p (transform c)); try discriminate.
      injection H as <- <-. repeat split; auto.
  - unfold process_entity_file in H. rewrite Hf in H. discriminate.
Qed.


Lemma process_paths_cons_raised p paths w n w' :
  process_entity_file p w = Raised w' ->
  process_paths (p :: paths) w n = Raised w'.
Proof. intros H. cbn [process_paths]. now rewrite H. Qed.

Lemma process_paths_cons_returned p paths w n b w' :
  process_entity_file p w = Returned b w' ->
  process_paths (p :: paths) w n
  = process_paths paths w' (if b then n + 1 else n).
Proof. intros H. cbn [process_paths]. rewrite H. now destruct b. Qed.

Lemma process_files_paths root file_names w n :
  process_files root file_names w n
  = process_paths (map (path_join root)
                       (filter (endswith (utf8 ".cs")) file_names)) w n.
Proof.
  revert w n; induction file_names as [|f fs IH]; intros w n; [reflexivity|].
  cbn [process_files filter].
  destruct (endswith (utf8 ".cs") f); [|apply IH].
  cbn [map process_paths].
  destruct (process_entity_file (path_join root f) w) as [[|] w'|w']; auto.
Qed.

Lemma process_paths_app l1 l2 w n :
  process_paths (l1 ++ l2) w n
  = match process_paths l1 w n with
    | Raised w' => Raised w'
    | Returned n' w' => process_paths l2 w' n'
    end.
Proof.
  revert w n; induction l1 as [|p l1 IH]; intros w n; [reflexivity|].
  cbn [app process_paths].
  destruct (process_entity_file p w) as [[|] w'|w']; auto.
Qed.

Lemma process_tree_paths entries w n :
  process_tree entries w n = process_paths (cs_paths entries) w n.
Proof.
  revert w n; induction entries as [|[[root dirs] fs] es IH]; intros w n;
    [reflexivity|].
  cbn [process_tree cs_paths flat_map]. rewrite process_paths_app.
  rewrite process_files_paths.
  destruct (process_paths _ w n) as [n' w'|w']; [apply IH | reflexivity].
Qed.






Lemma process_paths_inv paths : forall w n w' n',
  process_paths paths w n = Returned n' w' ->
  (forall p, In p paths -> files w p <> None)
  /\ (forall q, files w' q
                = if existsb (str_eqb q) paths
                  then option_map transform (files w q) else files w q)
  /\ path_exists w' = path_exists w /\ os_walk w' = os_walk w
  /\ exists ws,
       writes w' = writes w ++ ws
       /\ stdout w' = stdout w ++ map report_line ws
       /\ n' = n + length ws
       /\ NoDup (map fst ws)
       /\ Forall (write_of paths w) ws.
Proof.
  induction paths as [|p paths IH]; intros w n w' n' H.
  - simpl in H. injection H as <- <-.
    split; [intros p []|]. split; [reflexivity|]. split; auto. split; auto.
    exists []. rewrite !app_nil_r. simpl. repeat split; auto. constructor.
  - destruct (process_entity_file p w) as [b w1|w1] eqn:E;
      [|rewrite (process_paths_cons_raised _ _ _ _ _ E) in H; discriminate].
    rewrite (process_paths_cons_returned _ _ _ _ _ _ E) in H.
    apply process_entity_file_report in E
      as (c & Hf & Hb & Hpe & Hwk & _ & Hfiles & Hwr & Hout).
    apply IH in H as (Hex & Hfin & Hpe' & Hwk' & ws & Ew & Eo & En & Hnd & Hall).
    assert (Hws : Forall (fun pc => fst pc <> p /\ write_of (p :: paths) w pc) ws).
    { rewrite Forall_forall in *. intros [q c'] Hin.
      destruct (Hall _ Hin) as (Hq & Ht & Hne). simpl in *.
      rewrite Hfiles in Ht, Hne.
      destruct (str_eqb q p) eqn:Eq.
      - exfalso. simpl in Ht. rewrite transform_again in Ht. congruence.
      - apply str_eqb_neq in Eq. split; auto. repeat split; simpl; auto. }
    split; [|split; [|split; [congruence|split; [congruence|]]]].
    + intros q [<-|Hq]; [congruence|].
      specialize (Hex q Hq). rewrite Hfiles in Hex.
      destruct (str_eqb q p) eqn:Eq; auto.
      apply str_eqb_eq in Eq. subst q. congruence.
    + intros q. rewrite Hfin, Hfiles. simpl.
      destruct (str_eqb q p) eqn:Eq; simpl.
      * apply str_eqb_eq in Eq. subst q. rewrite Hf. simpl.
        destruct (existsb (str_eqb p) paths); simpl; auto.
        now rewrite transform_again.
      * reflexivity.
    + exists ((if b then [(p, transform c)] else []) ++ ws).
      rewrite Ew, Eo, Hwr, Hout, <- !app_assoc, map_app.
      split; [reflexivity|]. split; [destruct b; reflexivity|].
      split; [destruct b; rewrite length_app; simpl; lia|].
      split.
      * destruct b; simpl; auto. constructor; auto.
        intros Hin. apply in_map_iff in Hin as ([q c'] & Eq & Hin).
        simpl in Eq. subst q. rewrite Forall_forall in Hws.
        destruct (Hws _ Hin) as [Hne _]. now apply Hne.
      * apply Forall_app. split.
        -- destruct b; constructor; auto.
           split; [left; reflexivity|]. simpl. rewrite Hf. simpl.
           split; auto. intros Heq. injection Heq as Heq.
           rewrite <- Heq, str_eqb_refl in Hb. discriminate.
        -- eapply Forall_impl; [|exact Hws]. intros pc [_ Hp]. exact Hp.
Qed.


Lemma process_paths_settled paths : forall w n,
  (forall p, In p paths -> exists c, files w p = Some c /\ transform c = c) ->
  process_paths paths w n = Returned n w.
Proof.
  induction paths as [|p paths IH]; intros w n H; [reflexivity|].
  destruct (H p (or_introl eq_refl)) as (c & Hf & Hc).
  assert (E : process_entity_file p w = Returned false w).
  { now rewrite (process_entity_file_eq _ _ _ Hf), Hc, str_eqb_refl. }
  rewrite (process_paths_cons_returned _ _ _ _ _ _ E).
  apply IH. intros q Hq. apply H. now right.
Qed.



Lemma main_eq w :
  main w
  = if negb (path_exists w entities_dir)
    then Returned tt (print missing_dir_line w)
    else match process_paths (cs_paths (os_walk w entities_dir)) w 0 with
         | Raised w' => Raised w'
         | Returned n w' => Returned tt (print (summary_line n) w')
         end.
Proof.
  unfold main, missing_dir_line, summary_line.
  destruct (negb (path_exists w entities_dir)); [reflexivity|].
  rewrite process_tree_paths. reflexivity.
Qed.

(** * The claims *)

(** C1. Idempotence of the per-file transformation: for every text [t],
    transforming the transformed text gives the transformed text again,
    [transform (transform t) = transform t]. *)
Theorem C1_transform_idempotent (t : str) :
  transform (transform t) = transform t.
Proof.
  unfold transform at 1.
  rewrite settled_normalize.
  - unfold transform. rewrite soft_delete_after_archivable.
    apply implement_archivable_twice.
  - apply settled_archivable, settled_soft_delete, normalize_settled.
Qed.

(** C2 fails on [categoria_text]: the gap is detected and the pattern
    matches, but the search returns the leftmost match, which is the
    closing brace of the method [Ativar] (a documentation comment follows
    it).  The template is spliced at offset 172, inside the method body at
    brace depth 2, and not at offset 279 in front of the closing brace of
    the class. *)
Theorem C2_template_lands_in_method :
  soft_delete_gap categoria_text = true
  /\ insert_pos categoria_text = Some 172
  /\ brace_depth (firstn 172 categoria_text) = 2
  /\ skipn 279 categoria_text = utf8 "
}
"
  /\ brace_depth (firstn 279 categoria_text) = 1
  /\ transform categoria_text
     = utf8 "using CoreApp.Domain.Entities.Common;

public class Categoria : ISoftDeletableEntity
{
    public int Id { get; set; }

    public void Ativar()
    {
        Ativo = true;"
       ++ SOFT_DELETE_TEMPLATE
       ++ utf8 "
    }

    /// <summary>
    /// Nome da categoria
    /// </summary>
    public string Nome { get; set; }
}
".
Proof.
  do 5 (split; [vm_compute; reflexivity|]). vm_compute; reflexivity.
Qed.

(** C3 fails, and on every input it speaks of.  The two checks do run in
    order, the second on the text that holds the soft-delete template; but
    its leftmost match is then the closing brace of [MarkAsDeleted] inside
    that template (a documentation comment follows it).  For every text
    that names both markers, lacks both signatures and has a match, the
    archivable template is spliced 917 characters into the soft-delete
    template: the output is the text up to the first insertion point, the
    first 917 characters of the soft-delete template, the archivable
    template, the rest of the soft-delete template (from the brace of
    [MarkAsDeleted] on) and the rest of the text.  On [fornecedor_text] the
    output therefore does not contain the soft-delete template as a block,
    and the archivable text does not come after it. *)
Theorem C3_archivable_lands_in_soft_delete :
  (forall t,
     contains SOFT_DELETABLE t = true ->
     contains ARCHIVABLE t = true ->
     contains SOFT_DELETE_SIGNATURE t = false ->
     contains ARCHIVABLE_SIGNATURE t = false ->
     re_search pattern t <> None
     \/ re_search pattern (normalize_imports t) <> None ->
     exists p,
       insert_pos (normalize_imports t) = Some p
       /\ transform t
          = firstn p (normalize_imports t)
            ++ firstn 917 SOFT_DELETE_TEMPLATE
            ++ ARCHIVABLE_TEMPLATE
            ++ skipn 917 SOFT_DELETE_TEMPLATE
            ++ skipn p (normalize_imports t))
  /\ skipn 917 SOFT_DELETE_TEMPLATE = utf8 "
    }

    /// <summary>
    /// Restaura uma entidade excluída logicamente
    /// </summary>
    public void Restore()
    {
        Excluido = false;
        DataExclusao = null;
        UsuarioExclusao = null;
        MotivoExclusao = null;
    }"
  /\ soft_delete_gap fornecedor_text = true
  /\ archivable_gap fornecedor_text = true
  /\ insert_pos fornecedor_text = Some 138
  /\ insert_pos (implement_soft_delete fornecedor_text) = Some (138 + 917)
  /\ transform fornecedor_text
     = utf8 "using CoreApp.Domain.Entities.Common;

public class Fornecedor : ISoftDeletableEntity, IArchivableEntity
{
    public int Id { get; set; }"
       ++ firstn 917 SOFT_DELETE_TEMPLATE
       ++ ARCHIVABLE_TEMPLATE
       ++ skipn 917 SOFT_DELETE_TEMPLATE
       ++ utf8 "
}
"
  /\ contains SOFT_DELETE_TEMPLATE (transform fornecedor_text) = false
  /\ contains ARCHIVABLE_TEMPLATE (transform fornecedor_text) = true.
Proof.
  split.
  - intros t Hs Ha Hss Has Hp. set (c0 := normalize_imports t).
    assert (Hp0 : insert_pos c0 <> None).
    { rewrite <- !insert_pos_found in Hp. destruct Hp as [Hp|Hp]; auto.
      now apply insert_pos_normalize. }
    destruct (insert_pos c0) as [p|] eqn:Ep; [clear Hp0 | contradiction].
    exists p. split; auto. unfold transform. fold c0.
    apply both_templates_output; auto.
    + unfold soft_delete_gap, c0.
      rewrite (contains_normalize SOFT_DELETABLE t soft_deletable_no_nl eq_refl).
      rewrite (contains_normalize SOFT_DELETE_SIGNATURE t
                 soft_delete_signature_no_nl eq_refl).
      now rewrite Hs, Hss.
    + unfold archivable_gap, c0.
      rewrite (contains_normalize ARCHIVABLE t archivable_no_nl eq_refl).
      rewrite (contains_normalize ARCHIVABLE_SIGNATURE t
                 archivable_signature_no_nl eq_refl).
      now rewrite Ha, Has.
  - do 7 (split; [vm_compute; reflexivity|]). vm_compute; reflexivity.
Qed.

Lemma C3_archivable_lands_in_soft_delete_witness :
  exists p,
    insert_pos (normalize_imports fornecedor_text) = Some p
    /\ transform fornecedor_text
       = firstn p (normalize_imports fornecedor_text)
         ++ firstn 917 SOFT_DELETE_TEMPLATE
         ++ ARCHIVABLE_TEMPLATE
         ++ skipn 917 SOFT_DELETE_TEMPLATE
         ++ skipn p (normalize_imports fornecedor_text).
Proof.
  apply (proj1 C3_archivable_lands_in_soft_delete fornecedor_text);
    try (vm_compute; reflexivity).
  left. vm_compute. discriminate.
Defined.

(** C4, as the claim states it, fails: [pedido_text] names a marker and
    lacks the import line, and its output has the import lines it had,
    with none added. *)
Lemma C4_counterexample :
  has_marker pedido_text = true
  /\ contains USING_COMMON pedido_text = false
  /\ ~ one_import_added pedido_text (normalize_imports pedido_text)
  /\ ~ one_import_added pedido_text (transform pedido_text)
  /\ using_lines (transform pedido_text) = using_lines pedido_text.
Proof.
  assert (E : using_lines (transform pedido_text) = using_lines pedido_text)
    by (vm_compute; reflexivity).
  assert (E' : using_lines (normalize_imports pedido_text) = using_lines pedido_text)
    by (vm_compute; reflexivity).
  assert (N : forall l : list str, l <> l ++ [USING_COMMON]).
  { intros l H. apply (f_equal (@length str)) in H.
    rewrite length_app in H. simpl in H. lia. }
  split; [vm_compute; reflexivity|].
  split; [vm_compute; reflexivity|].
  split; [|split; [|exact E]].
  - intros [H _]. rewrite E' in H. exact (N _ H).
  - intros [H _]. rewrite E in H. exact (N _ H).
Qed.

(** C4, amended. A text that names a marker, lacks the import line and has
    no import line containing 'CoreApp.Domain.Entities.Common' gains
    exactly one import line: the lines of the regrouped text are the
    import lines of the input, the added import, then the other lines, and
    in the final output too the import lines are those of the input
    followed by the added one, all before the first other line. *)
Theorem C4_import_added_when_missing (t : str) :
  has_marker t = true ->
  contains USING_COMMON t = false ->
  import_missing t = true ->
  split_nl (normalize_imports t)
  = using_lines t ++ [USING_COMMON] ++ other_lines t
  /\ one_import_added t (normalize_imports t)
  /\ one_import_added t (transform t).
Proof.
  intros Hm Hu Hi.
  assert (Hn : needs_using t = true) by (apply needs_using_iff; auto).
  rewrite (normalize_regroup t Hn).
  destruct (regroup_using_lines t) as (Eu & _ & Hf).
  assert (Er : regrouped_usings t = using_lines t ++ [USING_COMMON])
    by (unfold regrouped_usings; now rewrite Hi).
  rewrite Er in Eu.
  split; [|split].
  - rewrite regroup_lines, Er, <- app_assoc. reflexivity.
  - split; auto.
  - unfold transform. rewrite (normalize_regroup t Hn).
    destruct (lines_soft_delete _ Hf) as [Hf1 E1].
    destruct (lines_archivable _ Hf1) as [Hf2 E2].
    split; auto. now rewrite E2, E1.
Qed.

Lemma C4_import_added_when_missing_witness :
  split_nl (normalize_imports cliente_text)
  = using_lines cliente_text ++ [USING_COMMON] ++ other_lines cliente_text
  /\ one_import_added cliente_text (normalize_imports cliente_text)
  /\ one_import_added cliente_text (transform cliente_text).
Proof.
  apply (C4_import_added_when_missing cliente_text); vm_compute; reflexivity.
Defined.

(** C5. The import step is not tied to the member steps: whenever a marker
    is named and the import line is absent the lines are regrouped, whatever
    the searches find later; when they find nothing the regrouped text is
    the output.  [cliente_text] is such an input: its output has the import
    added and no template, and the file is handled like any other modified
    file: written and reported, unless the write raises. *)
Theorem C5_import_without_members :
  (forall t, has_marker t = true -> contains USING_COMMON t = false ->
     normalize_imports t = regroup_usings t
     /\ (insert_pos (regroup_usings t) = None -> transform t = regroup_usings t))
  /\ has_marker cliente_text = true
  /\ contains USING_COMMON cliente_text = false
  /\ insert_pos (regroup_usings cliente_text) = None
  /\ transform cliente_text = utf8 "using System;
using CoreApp.Domain.Entities.Common;

public class Cliente : ISoftDeletableEntity
{
    public int Id { get; set; }
}"
  /\ contains SOFT_DELETE_SIGNATURE (transform cliente_text) = false
  /\ soft_delete_gap (transform cliente_text) = true
  /\ forall file_path w, files w file_path = Some cliente_text ->
       process_entity_file file_path w
       = match write_fate w file_path (transform cliente_text) with
         | Written =>
           Returned true (print (utf8 "Processado: " ++ file_path)
                                (write_file file_path (transform cliente_text) w))
         | Refused => Raised w
         | Torn kept => Raised (tear_file file_path kept w)
         end.
Proof.
  split.
  - intros t Hm Hu.
    assert (Hn : needs_using t = true) by (apply needs_using_iff; auto).
    split; [now apply normalize_regroup|].
    intros Hp. unfold transform. rewrite (normalize_regroup t Hn).
    destruct (implement_soft_delete_spec (regroup_usings t))
      as [[-> _]|(_ & H & _)]; [|contradiction].
    destruct (implement_archivable_spec (regroup_usings t))
      as [[-> _]|(_ & H & _)]; [|contradiction].
    reflexivity.
  - do 6 (split; [vm_compute; reflexivity|]).
    intros file_path w Hf. rewrite (process_entity_file_eq _ _ _ Hf).
    replace (str_eqb (transform cliente_text) cliente_text) with false
      by (vm_compute; reflexivity).
    reflexivity.
Qed.

Lemma C5_import_without_members_witness :
  normalize_imports cliente_text = regroup_usings cliente_text
  /\ transform cliente_text = regroup_usings cliente_text.
Proof.
  destruct (proj1 C5_import_without_members cliente_text) as [H1 H2];
    try (vm_compute; reflexivity).
  split; [exact H1 | apply H2; vm_compute; reflexivity].
Defined.

(** C6. Gap closure: a text that contains 'ISoftDeletableEntity' and not
    'public bool Excluido', and in which the pattern matches (in the text as
    read, or in the text as the import step leaves it, which is what the
    search runs on), has 'public bool Excluido' in its output after one
    run. *)
Theorem C6_gap_closure (t : str) :
  contains SOFT_DELETABLE t = true ->
  contains SOFT_DELETE_SIGNATURE t = false ->
  re_search pattern t <> None
  \/ re_search pattern (normalize_imports t) <> None ->
  contains SOFT_DELETE_SIGNATURE (transform t) = true.
Proof.
  intros Hm Hs Hp. unfold transform.
  set (c0 := normalize_imports t).
  assert (H0 : contains SOFT_DELETABLE c0 = true
               /\ contains SOFT_DELETE_SIGNATURE c0 = false
               /\ insert_pos c0 <> None).
  { rewrite <- !insert_pos_found in Hp. subst c0.
    unfold normalize_imports in *.
    destruct (needs_using t); [|tauto].
    rewrite (contains_regroup SOFT_DELETABLE t soft_deletable_no_nl).
    rewrite (contains_regroup SOFT_DELETE_SIGNATURE t soft_delete_signature_no_nl).
    rewrite Hm, Hs. split; [reflexivity|]. split.
    - replace (contains SOFT_DELETE_SIGNATURE USING_COMMON) with false
        by reflexivity.
      now rewrite andb_false_r.
    - destruct Hp as [Hp|Hp]; auto. now apply insert_pos_regroup. }
  destruct H0 as (Hm0 & Hs0 & Hp0).
  assert (H1 : contains SOFT_DELETE_SIGNATURE (implement_soft_delete c0) = true).
  { destruct (implement_soft_delete_spec c0) as [[_ [G|G]]|(_ & _ & _ & H)].
    - unfold soft_delete_gap in G. rewrite Hm0, Hs0 in G. discriminate.
    - contradiction.
    - rewrite H by apply soft_delete_signature_no_nl.
      destruct soft_delete_body_contains as (_ & -> & _). apply orb_true_r. }
  destruct (implement_archivable_spec (implement_soft_delete c0))
    as [[-> _]|(_ & _ & _ & H)]; auto.
  rewrite H by apply soft_delete_signature_no_nl. now rewrite H1.
Qed.

Lemma C6_gap_closure_witness :
  contains SOFT_DELETE_SIGNATURE (transform servico_text) = true.
Proof.
  apply (C6_gap_closure servico_text).
  - vm_compute; reflexivity.
  - vm_compute; reflexivity.
  - left. vm_compute. discriminate.
Defined.

(** C7. No-op when the contracts are absent: a text that contains neither
    'ISoftDeletableEntity' nor 'IArchivableEntity' is returned unchanged,
    and processing a file with such a text writes nothing, prints nothing
    and returns [False]. *)
Theorem C7_no_marker_no_change (t : str) :
  contains SOFT_DELETABLE t = false ->
  contains ARCHIVABLE t = false ->
  transform t = t
  /\ forall file_path w, files w file_path = Some t ->
       process_entity_file file_path w = Returned false w.
Proof.
  intros H1 H2.
  assert (E : transform t = t).
  { apply no_marker_transform. unfold has_marker. now rewrite H1, H2. }
  split; auto. intros file_path w Hf.
  rewrite (process_entity_file_eq _ _ _ Hf), E, str_eqb_refl. reflexivity.
Qed.

Lemma C7_no_marker_no_change_witness :
  let t := utf8 "public class Produto
{
    public int Id { get; set; }
}
" in
  transform t = t
  /\ forall file_path w, files w file_path = Some t ->
       process_entity_file file_path w = Returned false w.
Proof.
  apply C7_no_marker_no_change; vm_compute; reflexivity.
Defined.







(** C10. Line preservation of the import step: when the branch runs, the
    lines of its output are the import lines of the input in their order,
    then the required import if no import line names the namespace, then
    the other lines in their order; as a collection they are the lines of
    the input plus at most that one line. *)
Theorem C10_import_step_keeps_lines (t : str) :
  needs_using t = true ->
  let added := if import_missing t then [USING_COMMON] else [] in
  split_nl (normalize_imports t)
  = filter is_using_line (split_nl t) ++ added
    ++ filter not_using_line (split_nl t)
  /\ Permutation (split_nl (normalize_imports t)) (added ++ split_nl t).
Proof.
  intros H added.
  assert (E : split_nl (normalize_imports t)
              = filter is_using_line (split_nl t) ++ added
                ++ filter not_using_line (split_nl t)).
  { rewrite normalize_regroup, regroup_lines by auto.
    unfold regrouped_usings, added, using_lines, other_lines.
    destruct (import_missing t); [now rewrite <- app_assoc|].
    reflexivity. }
  split; auto. rewrite E.
  rewrite app_assoc.
  eapply Permutation_trans;
    [apply Permutation_app_tail, Permutation_app_comm|].
  rewrite <- app_assoc. apply Permutation_app_head.
  apply partition_permutation.
Qed.

Lemma C10_import_step_keeps_lines_witness :
  let t := cliente_text in
  let added := if import_missing t then [USING_COMMON] else [] in
  split_nl (normalize_imports t)
  = filter is_using_line (split_nl t) ++ added
    ++ filter not_using_line (split_nl t)
  /\ Permutation (split_nl (normalize_imports t)) (added ++ split_nl t).
Proof.
  apply (C10_import_step_keeps_lines cliente_text). vm_compute; reflexivity.
Defined.

(** * Further properties of the script *)

(** ** The search and the splice *)

Lemma spaces_greedy_none rest pos k :
  spaces_greedy rest pos k = None ->
  forall w rest', rest = w ++ rest' -> forallb isspace w = true ->
                  k rest' (pos + length w) = None.
Proof.
  intros H w rest' -> Hw.
  destruct (k rest' (pos + length w)) eqn:E; auto.
  exfalso. apply (spaces_greedy_complete w rest' pos k); auto. congruence.
Qed.

Lemma spaces_greedy_longest rest : forall pos k m,
  spaces_greedy rest pos k = Some m ->
  exists w rest',
    rest = w ++ rest' /\ forallb isspace w = true
    /\ k rest' (pos + length w) = Some m
    /\ forall c w2 rest2,
         rest' = c :: w2 ++ rest2 -> isspace c = true ->
         forallb isspace w2 = true ->
         k rest2 (pos + length w + 1 + length w2) = None.
Proof.
  induction rest as [|c rest IH]; intros pos k m H; simpl in H.
  - exists [], []. rewrite Nat.add_0_r. repeat split; auto. discriminate.
  - destruct (isspace c) eqn:Ec.
    + destruct (spaces_greedy rest (S pos) k) eqn:E.
      * injection H as ->. destruct (IH _ _ _ E) as (w & rest' & -> & Hw & Hk & Hl).
        exists (c :: w), rest'. simpl. rewrite Ec, Hw.
        rewrite Nat.add_succ_r. repeat split; auto.
      * exists [], (c :: rest). rewrite Nat.add_0_r. repeat split; auto.
        intros c' w2 rest2 Er Hc Hw2. injection Er as <- ->.
        replace (pos + 1 + length w2) with (S pos + length w2) by lia.
        apply (spaces_greedy_none _ _ _ E w2 rest2); auto.
    + exists [], (c :: rest). rewrite Nat.add_0_r. repeat split; auto.
      intros c' w2 rest2 Er Hc Hw2. injection Er as <- ->. congruence.
Qed.

Lemma lang_brace_line_intro g2 w3 rest :
  forallb isspace g2 = true -> lang after_brace w3 rest ->
  lang brace_line (NL :: g2 ++ RBRACE :: w3) rest.
Proof. intros Hg L. apply lang_brace_line. eauto. Qed.

Lemma rmatch_group1_longest R rest pos caps k m :
  rmatch (RSeq (RGroup 1 RSpaces) R) rest pos caps k = Some m ->
  exists g1 rest1,
    rest = g1 ++ rest1 /\ forallb isspace g1 = true
    /\ rmatch R rest1 (pos + length g1)
              ((1, (pos, pos + length g1)) :: caps) k = Some m
    /\ forall c w2 rest2,
         rest1 = c :: w2 ++ rest2 -> isspace c = true ->
         forallb isspace w2 = true ->
         rmatch R rest2 (pos + length g1 + 1 + length w2)
                ((1, (pos, pos + length g1 + 1 + length w2)) :: caps) k = None.
Proof.
  intros H; simpl in H.
  apply spaces_greedy_longest in H as (g1 & rest1 & -> & Hg & H & Hl).
  exists g1, rest1. repeat split; auto.
Qed.

(** The first group is as long as it can be: no newline is left in the
    second group. *)
Lemma match_at_greedy b pos m :
  match_at pattern b pos = Some m ->
  exists g1 g2 tail,
    b = g1 ++ NL :: g2 ++ RBRACE :: tail
    /\ forallb isspace g1 = true /\ forallb isspace g2 = true
    /\ ~ In NL g2
    /\ (exists w3 rest, tail = w3 ++ rest /\ lang after_brace w3 rest)
    /\ m_start m = pos
    /\ span 1 (m_groups m) = Some (pos, pos + length g1).
Proof.
  unfold match_at, pattern. intros E.
  apply rmatch_group1_longest in E as (g1 & rest1 & -> & Hg1 & E & Hlong).
  pose proof E as E'.
  apply rmatch_sound in E' as (w & rest & caps' & -> & L & F & E').
  injection E' as <-.
  apply lang_brace_line in L as (g2 & w3 & -> & Hg2 & L).
  exists g1, g2, (w3 ++ rest). simpl.
  split; [now rewrite <- app_assoc|]. split; auto. split; auto.
  split; [|split; [eauto|split; auto]].
  - intros Hin. apply in_split in Hin as (g2a & g2b & ->).
    rewrite forallb_app in Hg2. simpl in Hg2.
    apply andb_true_iff in Hg2 as [Ha Hb].
    refine (rmatch_complete brace_line (NL :: g2b ++ RBRACE :: w3) rest _ _ _
              (lang_brace_line_intro _ _ _ Hb L) _
              (Hlong NL g2a ((NL :: g2b ++ RBRACE :: w3) ++ rest) _ eq_refl Ha)).
    + discriminate.
    + rewrite <- !app_assoc. simpl. rewrite <- app_assoc. reflexivity.
  - rewrite F by (simpl; intuition discriminate). simpl. reflexivity.
Qed.

Lemma insert_pos_greedy content p :
  insert_pos content = Some p ->
  exists a g2 tail,
    closing_site content a g2 tail /\ length a = p /\ ~ In NL g2.
Proof.
  unfold insert_pos, re_search.
  destruct (search_from pattern content 0) as [m|] eqn:E; [|discriminate].
  apply search_from_sound in E as (pre & rest1 & -> & E & _).
  apply match_at_greedy in E
    as (g1 & g2 & tail & -> & H1 & H2 & Hn & Ht & Hs & Hg).
  unfold group. rewrite Hg. intros H; injection H as <-.
  exists (pre ++ g1), g2, tail. split; [|split; auto].
  - split; [now rewrite <- app_assoc|]. split; auto.
  - rewrite skipn_length_app, Hs.
    replace (length pre + length g1 - length pre) with (length g1) by lia.
    rewrite firstn_length_app, length_app. lia.
Qed.

(** X1. The search finds no insertion point exactly when the text has no
    newline that is followed by white space, a closing brace and then
    (after white space holding a newline) a documentation comment, an enum
    or the end of the text. *)
Theorem search_fails_iff_no_site (content : str) :
  insert_pos content = None
  <-> ~ exists a g2 tail, closing_site content a g2 tail.
Proof.
  split.
  - intros H (a & g2 & tail & Hs). exact (insert_pos_complete _ _ _ _ Hs H).
  - intros H. destruct (insert_pos content) as [p|] eqn:E; auto.
    exfalso. apply H. apply insert_pos_sound in E as (a & g2 & tail & Hs & _).
    eauto.
Qed.

(** X2. Where the template goes: at a newline that is followed, on the
    same line (no further newline), by white space and the closing brace.
    Nothing of the text is lost or changed: the output is the text up to
    that newline, the template, and the text from that newline on. *)
Theorem template_goes_before_brace_line (template content : str) (p : nat) :
  insert_pos content = Some p ->
  exists g2 tail,
    skipn p content = NL :: g2 ++ RBRACE :: tail
    /\ forallb isspace g2 = true /\ ~ In NL g2
    /\ firstn p content ++ NL :: g2 ++ RBRACE :: tail = content
    /\ insert_template template content
       = firstn p content ++ template ++ NL :: g2 ++ RBRACE :: tail.
Proof.
  intros H. unfold insert_template. rewrite H.
  apply insert_pos_greedy in H as (a & g2 & tail & (-> & Hg & _) & <- & Hn).
  exists g2, tail. rewrite firstn_length_app, skipn_length_app. auto.
Qed.

Lemma site_found_iff content : site_found content = true <-> insert_pos content <> None.
Proof.
  unfold site_found. destruct (insert_pos content); split; congruence.
Qed.

Lemma insert_template_lines body content :
  insert_pos content <> None ->
  Permutation (split_nl (insert_template (NL :: body) content))
              (split_nl body ++ split_nl content).
Proof.
  intros Hp. destruct (insert_template_cases body content)
    as [[E _]|(a & g2 & tail & (-> & _) & ->)]; [contradiction|].
  change (a ++ (NL :: body) ++ NL :: g2 ++ RBRACE :: tail)
    with (a ++ NL :: body ++ NL :: g2 ++ RBRACE :: tail).
  rewrite !split_nl_app.
  rewrite app_assoc. rewrite (app_assoc (split_nl body)).
  apply Permutation_app_tail, Permutation_app_comm.
Qed.

Lemma soft_delete_lines c :
  Permutation (split_nl (implement_soft_delete c))
              ((if soft_delete_gap c && site_found c
                then split_nl soft_delete_body else []) ++ split_nl c).
Proof.
  destruct (implement_soft_delete_spec c) as [[-> [G|G]]|(G & Hp & -> & _)].
  - rewrite G. reflexivity.
  - unfold site_found. rewrite G, andb_false_r. reflexivity.
  - apply site_found_iff in Hp as Hf. rewrite G, Hf.
    now apply insert_template_lines.
Qed.

Lemma archivable_lines c :
  Permutation (split_nl (implement_archivable c))
              ((if archivable_gap c && site_found c
                then split_nl archivable_body else []) ++ split_nl c).
Proof.
  destruct (implement_archivable_spec c) as [[-> [G|G]]|(G & Hp & -> & _)].
  - rewrite G. reflexivity.
  - unfold site_found. rewrite G, andb_false_r. reflexivity.
  - apply site_found_iff in Hp as Hf. rewrite G, Hf.
    now apply insert_template_lines.
Qed.

Lemma normalize_lines t :
  Permutation (split_nl (normalize_imports t))
              ((if needs_using t && import_missing t then [USING_COMMON] else [])
               ++ split_nl t).
Proof.
  unfold normalize_imports. destruct (needs_using t); [|reflexivity].
  rewrite regroup_lines. unfold regrouped_usings, using_lines, other_lines.
  simpl andb. destruct (import_missing t).
  - rewrite <- app_assoc.
    eapply Permutation_trans; [apply Permutation_app_comm|].
    rewrite <- app_assoc. apply Permutation_app_head.
    eapply Permutation_trans; [apply Permutation_app_comm|].
    apply partition_permutation.
  - apply partition_permutation.
Qed.

(** X3. A run deletes and changes no line: the lines of the output are the
    lines of the input together with the lines the run adds (the import,
    the lines of each template spliced in). *)
Theorem output_lines_are_input_lines_plus_added (t : str) :
  Permutation (split_nl (transform t)) (added_lines t ++ split_nl t).
Proof.
  unfold transform, added_lines.
  set (c0 := normalize_imports t). set (c1 := implement_soft_delete c0).
  pose proof (archivable_lines c1) as Ha.
  pose proof (soft_delete_lines c0) as Hs. fold c1 in Hs.
  pose proof (normalize_lines t) as Hu. fold c0 in Hu.
  revert Ha Hs Hu.
  generalize (if archivable_gap c1 && site_found c1
              then split_nl archivable_body else []).
  generalize (if soft_delete_gap c0 && site_found c0
              then split_nl soft_delete_body else []).
  generalize (if needs_using t && import_missing t then [USING_COMMON] else []).
  intros u s a Ha Hs Hu.
  eapply Permutation_trans; [exact Ha|].
  eapply Permutation_trans; [apply Permutation_app_head, Hs|].
  eapply Permutation_trans;
    [apply Permutation_app_head, Permutation_app_head, Hu|].
  rewrite !app_assoc. apply Permutation_app_tail.
  eapply Permutation_trans; [apply Permutation_app_comm|].
  rewrite <- app_assoc. apply Permutation_app_head, Permutation_app_comm.
Qed.

Lemma contains_soft_delete_step n c :
  ~ In NL n ->
  contains n (implement_soft_delete c)
  = contains n c
    || (soft_delete_gap c && site_found c && contains n soft_delete_body).
Proof.
  intros Hn.
  destruct (implement_soft_delete_spec c) as [[-> [G|G]]|(G & Hp & _ & H)].
  - rewrite G. cbn [andb]. now rewrite orb_false_r.
  - unfold site_found. rewrite G, andb_false_r. cbn [andb]. now rewrite orb_false_r.
  - apply site_found_iff in Hp. rewrite G, Hp. cbn [andb]. now apply H.
Qed.

Lemma contains_archivable_step n c :
  ~ In NL n ->
  contains n (implement_archivable c)
  = contains n c
    || (archivable_gap c && site_found c && contains n archivable_body).
Proof.
  intros Hn.
  destruct (implement_archivable_spec c) as [[-> [G|G]]|(G & Hp & _ & H)].
  - rewrite G. cbn [andb]. now rewrite orb_false_r.
  - unfold site_found. rewrite G, andb_false_r. cbn [andb]. now rewrite orb_false_r.
  - apply site_found_iff in Hp. rewrite G, Hp. cbn [andb]. now apply H.
Qed.

(** X6. A run neither brings in nor removes a marker name: the output
    contains 'ISoftDeletableEntity' exactly when the input does, and
    likewise 'IArchivableEntity'. *)
Theorem markers_are_kept (t : str) :
  contains SOFT_DELETABLE (transform t) = contains SOFT_DELETABLE t
  /\ contains ARCHIVABLE (transform t) = contains ARCHIVABLE t.
Proof.
  unfold transform. set (c0 := normalize_imports t).
  assert (Es : contains SOFT_DELETABLE c0 = contains SOFT_DELETABLE t)
    by (apply contains_normalize; [apply soft_deletable_no_nl | reflexivity]).
  assert (Ea : contains ARCHIVABLE c0 = contains ARCHIVABLE t)
    by (apply contains_normalize; [apply archivable_no_nl | reflexivity]).
  destruct soft_delete_body_contains as (_ & _ & Sa & _).
  destruct archivable_body_contains as (_ & _ & As & _).
  split.
  - rewrite (contains_archivable_step SOFT_DELETABLE
               (implement_soft_delete c0) soft_deletable_no_nl), As.
    rewrite andb_false_r, orb_false_r.
    rewrite (contains_soft_delete_step SOFT_DELETABLE c0 soft_deletable_no_nl),
      <- Es.
    unfold soft_delete_gap.
    destruct (contains SOFT_DELETABLE c0); reflexivity.
  - rewrite (contains_archivable_step ARCHIVABLE
               (implement_soft_delete c0) archivable_no_nl).
    pose proof (contains_soft_delete_step ARCHIVABLE c0 archivable_no_nl) as E.
    rewrite Sa, andb_false_r, orb_false_r in E.
    unfold archivable_gap at 1. rewrite E, <- Ea.
    destruct (contains ARCHIVABLE c0); reflexivity.
Qed.

Lemma contains_trans a b c :
  contains a b = true -> contains b c = true -> contains a c = true.
Proof.
  intros H1 H2.
  apply contains_elim in H1 as (x & y & ->).
  apply contains_elim in H2 as (u & v & ->).
  replace (u ++ (x ++ a ++ y) ++ v) with ((u ++ x) ++ a ++ (y ++ v))
    by (rewrite <- !app_assoc; reflexivity).
  apply contains_intro.
Qed.

(** X4. After a run, a text that names a marker contains
    'CoreApp.Domain.Entities.Common'. *)
Theorem namespace_named_after_run (t : str) :
  has_marker t = true ->
  contains COMMON_NAMESPACE (transform t) = true.
Proof.
  intros Hm.
  assert (Hs : imports_settled (transform t))
    by apply settled_archivable, settled_soft_delete, normalize_settled.
  destruct Hs as [H|[H|[_ H]]].
  - apply (contains_trans _ USING_COMMON); [reflexivity | exact H].
  - unfold has_marker in *. destruct (markers_are_kept t) as [E1 E2].
    rewrite E1, E2 in H. congruence.
  - unfold import_missing in H. apply negb_false_iff in H.
    apply existsb_exists in H as (l & Hl & Hc).
    apply (contains_line COMMON_NAMESPACE _ l); auto.
    + apply no_nl_check; reflexivity.
    + unfold using_lines in Hl. apply filter_In in Hl. tauto.
Qed.

(** X5. A gap that is still there after a run has no insertion point:
    when the output names a marker and lacks its signature, the search
    finds nothing in the output, so a further run cannot close the gap. *)
Theorem surviving_gap_has_no_site (t : str) :
  soft_delete_gap (transform t) = true \/ archivable_gap (transform t) = true ->
  insert_pos (transform t) = None.
Proof.
  unfold transform. set (c0 := normalize_imports t).
  destruct soft_delete_body_contains as (_ & Ss & _ & _ & _).
  destruct archivable_body_contains as (_ & Aa & As & Asg & _).
  intros [G|G].
  - destruct (implement_soft_delete_spec c0) as [[E0 [G0|P0]]|(_ & _ & _ & H)].
    + exfalso. rewrite E0 in G. unfold soft_delete_gap in G, G0.
      rewrite (contains_archivable_step SOFT_DELETABLE c0
                 soft_deletable_no_nl) in G.
      rewrite (contains_archivable_step SOFT_DELETE_SIGNATURE c0
                 soft_delete_signature_no_nl) in G.
      rewrite As, Asg, !andb_false_r, !orb_false_r in G. congruence.
    + rewrite E0.
      destruct (implement_archivable_spec c0) as [[-> _]|(_ & P & _)];
        [exact P0 | contradiction].
    + exfalso. unfold soft_delete_gap in G.
      rewrite (contains_archivable_step SOFT_DELETE_SIGNATURE
                 (implement_soft_delete c0) soft_delete_signature_no_nl) in G.
      rewrite (H SOFT_DELETE_SIGNATURE soft_delete_signature_no_nl), Ss in G.
      rewrite orb_true_r in G. cbn [orb negb] in G. rewrite andb_false_r in G.
      discriminate.
  - destruct (implement_archivable_spec (implement_soft_delete c0))
      as [[E1 [G1|P1]]|(_ & _ & _ & H)].
    + rewrite E1 in G. congruence.
    + now rewrite E1.
    + exfalso. unfold archivable_gap in G.
      rewrite (H ARCHIVABLE_SIGNATURE archivable_signature_no_nl), Aa in G.
      rewrite orb_true_r, andb_false_r in G. discriminate.
Qed.

(** X7. The test on 'namespace' in the line filter never decides: a line
    is an import line exactly when its stripped text starts with
    'using '. *)
Theorem namespace_test_is_redundant (line : str) :
  is_using_line line = startswith USING_PREFIX (strip line).
Proof.
  unfold is_using_line.
  destruct (strip line) as [|c s]; [reflexivity|].
  change (startswith USING_PREFIX (c :: s))
    with ((117 =? c)%N && startswith (utf8 "sing ") s).
  change (startswith NAMESPACE_PREFIX (c :: s))
    with ((110 =? c)%N && startswith (utf8 "amespace") s).
  destruct (N.eqb_spec 117 c) as [<-|]; simpl; [|reflexivity].
  now rewrite andb_true_r.
Qed.

Lemma template_goes_before_brace_line_witness :
  exists g2 tail,
    skipn 116 produto_text = NL :: g2 ++ RBRACE :: tail
    /\ forallb isspace g2 = true /\ ~ In NL g2
    /\ firstn 116 produto_text ++ NL :: g2 ++ RBRACE :: tail = produto_text
    /\ insert_template SOFT_DELETE_TEMPLATE produto_text
       = firstn 116 produto_text ++ SOFT_DELETE_TEMPLATE
         ++ NL :: g2 ++ RBRACE :: tail.
Proof.
  apply (template_goes_before_brace_line SOFT_DELETE_TEMPLATE produto_text 116).
  vm_compute; reflexivity.
Defined.

Lemma namespace_named_after_run_witness :
  contains COMMON_NAMESPACE (transform servico_text) = true.
Proof.
  apply (namespace_named_after_run servico_text). vm_compute; reflexivity.
Defined.

Lemma surviving_gap_has_no_site_witness :
  insert_pos (transform cliente_text) = None.
Proof.
  apply (surviving_gap_has_no_site cliente_text). left. vm_compute; reflexivity.
Defined.

(** ** The driver *)

(** X8. What [main] leaves in the files: when the entities directory
    exists, every visited '.cs' path holds the transformed text of what it
    held, and every other path holds what it held; when the directory is
    missing, every path holds what it held. *)
Theorem main_files (w w' : world) :
  main w = Returned tt w' ->
  forall p,
    files w' p
    = if path_exists w entities_dir
         && existsb (str_eqb p) (cs_paths (os_walk w entities_dir))
      then option_map transform (files w p)
      else files w p.
Proof.
  rewrite main_eq. intros H p.
  destruct (path_exists w entities_dir); cbn [negb andb] in *.
  - destruct (process_paths _ w 0) as [n w1|w1] eqn:E; [|discriminate].
    injection H as <-. apply process_paths_inv in E as (_ & Hf & _).
    apply Hf.
  - injection H as <-. reflexivity.
Qed.


(** X10. What [main] writes and prints: one write and one "Processado"
    line per modified file, in the same order, then one last line, which
    reports the number of writes or the missing directory.  No path is
    written twice, and each write is to a visited path, of the transformed
    text of the file as it was at the start, which differed from it. *)
Theorem main_report (w w' : world) :
  main w = Returned tt w' ->
  exists ws,
    writes w' = writes w ++ ws
    /\ stdout w'
       = stdout w ++ map report_line ws
         ++ [if path_exists w entities_dir then summary_line (length ws)
             else missing_dir_line]
    /\ (path_exists w entities_dir = false -> ws = [])
    /\ NoDup (map fst ws)
    /\ Forall (write_of (cs_paths (os_walk w entities_dir)) w) ws.
Proof.
  rewrite main_eq. intros H.
  destruct (path_exists w entities_dir); cbn [negb] in *.
  - destruct (process_paths _ w 0) as [n w1|w1] eqn:E; [|discriminate].
    injection H as <-.
    apply process_paths_inv
      in E as (_ & _ & _ & _ & ws & Ew & Eo & -> & Hnd & Hall).
    exists ws. simpl. rewrite Ew, Eo, <- app_assoc.
    repeat split; auto. discriminate.
  - injection H as <-. exists []. simpl. rewrite app_nil_r.
    repeat split; auto. constructor.
Qed.

(** X11. Running [main] again on what it left writes nothing and reports
    zero modified files (or the missing directory again). *)
Theorem main_again_changes_nothing (w w' : world) :
  main w = Returned tt w' ->
  main w'
  = Returned tt (print (if path_exists w entities_dir then summary_line 0
                        else missing_dir_line) w').
Proof.
  rewrite !main_eq. intros H.
  destruct (path_exists w entities_dir) eqn:Hd; cbn [negb] in *.
  - destruct (process_paths _ w 0) as [n w1|w1] eqn:E; [|discriminate].
    injection H as <-.
    apply process_paths_inv in E as (Hex & Hf & Hpe & Hwk & _).
    cbn [path_exists os_walk print]. rewrite Hpe, Hd, Hwk. cbn [negb].
    rewrite process_paths_settled; [reflexivity|].
    intros p Hp. cbn [files print]. rewrite Hf.
    apply existsb_str_eqb in Hp as Hp'. rewrite Hp'.
    destruct (files w p) as [c|] eqn:Hc; [|now apply Hex in Hp].
    exists (transform c). split; auto. apply transform_again.
  - injection H as <-. cbn [path_exists print]. rewrite Hd. reflexivity.
Qed.


Lemma example_main : main example_start = Returned tt example_result.
Proof. vm_compute. reflexivity. Qed.


Lemma main_files_witness :
  files example_result produto_path
  = if path_exists example_start entities_dir
       && existsb (str_eqb produto_path)
                  (cs_paths (os_walk example_start entities_dir))
    then option_map transform (files example_start produto_path)
    else files example_start produto_path.
Proof.
  apply (main_files example_start example_result example_main produto_path).
Defined.

Lemma main_report_witness :
  exists ws,
    writes example_result = writes example_start ++ ws
    /\ stdout example_result
       = stdout example_start ++ map report_line ws
         ++ [if path_exists example_start entities_dir
             then summary_line (length ws) else missing_dir_line]
    /\ (path_exists example_start entities_dir = false -> ws = [])
    /\ NoDup (map fst ws)
    /\ Forall (write_of (cs_paths (os_walk example_start entities_dir))
                        example_start) ws.
Proof. apply (main_report example_start example_result). exact example_main. Defined.

Lemma main_again_changes_nothing_witness :
  main example_result
  = Returned tt (print (if path_exists example_start entities_dir
                        then summary_line 0 else missing_dir_line)
                       example_result).
Proof.
  apply (main_again_changes_nothing example_start example_result).
  exact example_main.
Defined.


(** ** The import step together with the other steps *)

(** X12. The import step neither makes nor breaks an occurrence of a text
    without newline: its output contains such a text exactly when the input
    does, or when the import is appended and contains it. *)
Theorem import_step_keeps_occurrences (n t : str) :
  ~ In NL n ->
  contains n (normalize_imports t)
  = contains n t
    || (needs_using t && import_missing t && contains n USING_COMMON).
Proof.
  intros Hn. unfold normalize_imports. destruct (needs_using t).
  - now rewrite (contains_regroup n t Hn).
  - cbn [andb]. now rewrite orb_false_r.
Qed.

Lemma import_step_keeps_occurrences_witness :
  contains SOFT_DELETE_SIGNATURE (normalize_imports servico_text)
  = contains SOFT_DELETE_SIGNATURE servico_text
    || (needs_using servico_text && import_missing servico_text
        && contains SOFT_DELETE_SIGNATURE USING_COMMON).
Proof.
  apply (import_step_keeps_occurrences SOFT_DELETE_SIGNATURE servico_text).
  exact soft_delete_signature_no_nl.
Defined.

(** X13. A text in which the search finds an insertion point still has one
    after the import step, whatever lines that step moves. *)
Theorem site_survives_import_step (t : str) :
  re_search pattern t <> None ->
  re_search pattern (normalize_imports t) <> None.
Proof.
  rewrite <- !insert_pos_found. apply insert_pos_normalize.
Qed.

Lemma site_survives_import_step_witness :
  re_search pattern (normalize_imports servico_text) <> None.
Proof.
  apply (site_survives_import_step servico_text). vm_compute. discriminate.
Defined.

Lemma insert_template_using_lines body content :
  forallb not_using_line (split_nl body) = true ->
  using_lines (insert_template (NL :: body) content) = using_lines content.
Proof.
  intros Hb. destruct (insert_template_cases body content)
    as [[_ ->]|(a & g2 & tail & (-> & _) & ->)]; [reflexivity|].
  change (a ++ (NL :: body) ++ NL :: g2 ++ RBRACE :: tail)
    with (a ++ NL :: body ++ NL :: g2 ++ RBRACE :: tail).
  unfold using_lines. rewrite !split_nl_app, !filter_app.
  now rewrite (filter_none is_using_line (split_nl body) Hb).
Qed.

(** X14. The import lines of the output, for every input: those of the
    input in their order, followed by the required import when the import
    step appends it.  The two member steps add, drop and move none. *)
Theorem output_import_lines (t : str) :
  using_lines (transform t)
  = using_lines t
    ++ (if needs_using t && import_missing t then [USING_COMMON] else []).
Proof.
  unfold transform.
  assert (Ea : forall c, using_lines (implement_archivable c) = using_lines c).
  { intros c. destruct (implement_archivable_spec c) as [[-> _]|(_ & _ & -> & _)];
      auto using insert_template_using_lines, archivable_body_lines. }
  assert (Es : forall c, using_lines (implement_soft_delete c) = using_lines c).
  { intros c. destruct (implement_soft_delete_spec c) as [[-> _]|(_ & _ & -> & _)];
      auto using insert_template_using_lines, soft_delete_body_lines. }
  rewrite Ea, Es. unfold normalize_imports.
  destruct (needs_using t); cbn [andb]; [|now rewrite app_nil_r].
  destruct (regroup_using_lines t) as (-> & _).
  unfold regrouped_usings. destruct (import_missing t); auto.
  now rewrite app_nil_r.
Qed.
